(** * asm/instruction.go: the eBPF instruction codec and program linker

    A shallow embedding of [Instruction] and [Instructions] of package
    [asm], with their binary codec ([Marshal], [Unmarshal]), the map
    pointer rewrites and the symbol resolution done while a program is
    marshalled.

    Conventions of the embedding:
    - Go's fixed width integers are values of [Z]; every conversion
      [uint32(x)], [int16(x)], ... is the wrap-around function of the same
      name, written where the source writes the conversion.
    - Go's [int] is [Z] as well.  The [int] values of this file are slice
      indices and slot counters, bounded by twice the length of a slice, so
      the machine arithmetic on them never wraps.
    - An [io.Reader] is the list of bytes still to be read and an
      [io.Writer] the list of bytes written so far (a [bytes.Buffer]).
    - A method with a pointer receiver returns the new value of its
      receiver next to its results. *)

From Stdlib Require Import ZArith Lia.
From Stdlib.Strings Require Import Byte.
From Stdlib.Sorting Require Import Sorted.
From stdpp Require Import base gmap strings list fin_maps.

Local Open Scope Z_scope.

(** ** Fixed width integers *)

Definition uint8 (z : Z) : Z := z mod 2 ^ 8.
Definition uint16 (z : Z) : Z := z mod 2 ^ 16.
Definition uint32 (z : Z) : Z := z mod 2 ^ 32.
Definition uint64 (z : Z) : Z := z mod 2 ^ 64.

Definition int16 (z : Z) : Z := (z + 2 ^ 15) mod 2 ^ 16 - 2 ^ 15.
Definition int32 (z : Z) : Z := (z + 2 ^ 31) mod 2 ^ 32 - 2 ^ 31.
Definition int64 (z : Z) : Z := (z + 2 ^ 63) mod 2 ^ 64 - 2 ^ 63.

Definition is_uint8 (z : Z) : Prop := 0 <= z < 2 ^ 8.
Definition is_uint32 (z : Z) : Prop := 0 <= z < 2 ^ 32.
Definition is_int16 (z : Z) : Prop := - 2 ^ 15 <= z < 2 ^ 15.
Definition is_int32 (z : Z) : Prop := - 2 ^ 31 <= z < 2 ^ 31.
Definition is_int64 (z : Z) : Prop := - 2 ^ 63 <= z < 2 ^ 63.

(** [math.MaxUint32] *)
Definition MaxUint32 : Z := 2 ^ 32 - 1.

(** ** Bytes and byte order ([encoding/binary]) *)

Definition byte_of_Z (z : Z) : byte :=
  match Byte.of_N (Z.to_N (uint8 z)) with
  | Some b => b
  | None => "000"%byte
  end.

Definition Z_of_byte (b : byte) : Z := Z.of_N (Byte.to_N b).

Inductive ByteOrder : Type := LittleEndian | BigEndian.

Definition PutUint16 (bo : ByteOrder) (v : Z) : list byte :=
  match bo with
  | LittleEndian => [byte_of_Z v; byte_of_Z (Z.shiftr v 8)]
  | BigEndian => [byte_of_Z (Z.shiftr v 8); byte_of_Z v]
  end.

Definition PutUint32 (bo : ByteOrder) (v : Z) : list byte :=
  match bo with
  | LittleEndian =>
      [byte_of_Z v; byte_of_Z (Z.shiftr v 8);
       byte_of_Z (Z.shiftr v 16); byte_of_Z (Z.shiftr v 24)]
  | BigEndian =>
      [byte_of_Z (Z.shiftr v 24); byte_of_Z (Z.shiftr v 16);
       byte_of_Z (Z.shiftr v 8); byte_of_Z v]
  end.

Definition Uint16 (bo : ByteOrder) (b0 b1 : byte) : Z :=
  match bo with
  | LittleEndian => Z.lor (Z_of_byte b0) (Z.shiftl (Z_of_byte b1) 8)
  | BigEndian => Z.lor (Z_of_byte b1) (Z.shiftl (Z_of_byte b0) 8)
  end.

Definition Uint32 (bo : ByteOrder) (b0 b1 b2 b3 : byte) : Z :=
  match bo with
  | LittleEndian =>
      Z.lor (Z.lor (Z.lor (Z_of_byte b0) (Z.shiftl (Z_of_byte b1) 8))
                   (Z.shiftl (Z_of_byte b2) 16))
            (Z.shiftl (Z_of_byte b3) 24)
  | BigEndian =>
      Z.lor (Z.lor (Z.lor (Z_of_byte b3) (Z.shiftl (Z_of_byte b2) 8))
                   (Z.shiftl (Z_of_byte b1) 16))
            (Z.shiftl (Z_of_byte b0) 24)
  end.

(** ** Errors

    One constructor per error the file creates, with the values that its
    message formats; [EOF] and [ErrUnexpectedEOF] are package [io]'s. *)

Inductive error : Type :=
  | EOF
  | ErrUnexpectedEOF
  | ErrMissingSecondHalf          (* "64bit immediate is missing second half" *)
  | ErrNonZeroFields              (* "64bit immediate has non-zero fields" *)
  | ErrInvalidOpcode              (* "invalid opcode" *)
  | ErrNot64BitLoad (op : Z)      (* "%s is not a 64 bit load" *)
  | ErrNotMapLoad                 (* "not a load from a map" *)
  | ErrNotDirectMapLoad           (* "not a direct load from a map" *)
  | ErrEmptySymbol                (* "empty symbol" *)
  | ErrDuplicateSymbol (s : string)            (* "duplicate symbol %s" *)
  | ErrMissingSymbol (i : Z) (s : string)
      (* "instruction %d: reference to missing symbol %s" *)
  | ErrInstruction (i : Z) (e : error)         (* "instruction %d: %w" *)
  | unreferencedSymbolError (symbol : string).

Inductive result (A : Type) : Type :=
  | Ok (a : A)
  | Err (e : error).
Arguments Ok {A} a.
Arguments Err {A} e.

(** ** Readers and writers *)

Definition Reader : Type := list byte.
Definition Writer : Type := list byte.

(** [io.ReadFull(r, buf)] for a buffer of [n] bytes: [EOF] when nothing is
    left, [ErrUnexpectedEOF] when the stream ends inside the buffer; what
    was there has been consumed. *)
Definition ReadFull (n : nat) (r : Reader) : Reader * result (list byte) :=
  match r with
  | [] => ([], Err EOF)
  | _ => if (length r <? n)%nat then ([], Err ErrUnexpectedEOF)
         else (drop n r, Ok (take n r))
  end.

(** [binary.Write] of an 8 byte buffer to a [bytes.Buffer]: never fails. *)
Definition Buffer_Write (w : Writer) (bs : list byte) : Writer * option error :=
  (w ++ bs, None).

(** ** A concrete opcode layout

    Modelled from the spec: the opcode type of package [asm] (its constants
    and the methods [isDWordLoad], [Class], [JumpOp]) and the register
    constants are declared outside instruction.go, and the spec lists the
    queries the type offers without fixing its bit layout.  The development
    below takes them as parameters.  This instance follows the eBPF
    instruction set, with the class in the low three bits of an opcode and
    the jump operation in the high four; it serves to run the definitions
    on concrete programs and plays no part in the general theorems. *)
Module Layout.
Definition InvalidOpCode : Z := 255.
Definition LoadImmDWord : Z := 24.
Definition isDWordLoad (op : Z) : bool := op =? LoadImmDWord.
Definition JumpClass : Z := 5.
Definition Class (op : Z) : Z := Z.land op 7.
Definition InvalidJumpOp : Z := 255.
Definition Call : Z := 128.
Definition JumpOp (op : Z) : Z :=
  if Class op =? JumpClass then Z.land op 240 else InvalidJumpOp.
Definition R0 : Z := 0.
Definition PseudoMapFD : Z := 1.
Definition PseudoMapValue : Z := 2.
Definition PseudoCall : Z := 1.
(** [Ja], [Call], [Exit] of the jump class, and a 64 bit [Mov]. *)
Definition opJa : Z := 5.
Definition opCall : Z := 133.
Definition opExit : Z := 149.
Definition opMov : Z := 183.
End Layout.

(** ** Instructions *)

(** [OpCode], [Dst] and [Src] are [uint8], [Offset] is [int16] and
    [Constant] is [int64]. *)
Record Instruction : Type := mkInstruction {
  OpCode : Z;
  Dst : Z;
  Src : Z;
  Offset : Z;
  Constant : Z;
  Reference : string;
  Symbol : string
}.

Definition set_Offset (v : Z) (ins : Instruction) : Instruction :=
  mkInstruction (OpCode ins) (Dst ins) (Src ins) v (Constant ins)
                (Reference ins) (Symbol ins).

Definition set_Constant (v : Z) (ins : Instruction) : Instruction :=
  mkInstruction (OpCode ins) (Dst ins) (Src ins) (Offset ins) v
                (Reference ins) (Symbol ins).

(** The zero value of [Instruction]. *)
Definition zeroInstruction : Instruction := mkInstruction 0 0 0 0 0 "" "".

(** The values a field of each type can hold. *)
Record wf_Instruction (ins : Instruction) : Prop := {
  wf_OpCode : is_uint8 (OpCode ins);
  wf_Dst : is_uint8 (Dst ins);
  wf_Src : is_uint8 (Src ins);
  wf_Offset : is_int16 (Offset ins);
  wf_Constant : is_int64 (Constant ins)
}.

(** [Sym] *)
Definition Sym (ins : Instruction) (name : string) : Instruction :=
  mkInstruction (OpCode ins) (Dst ins) (Src ins) (Offset ins) (Constant ins)
                (Reference ins) name.

(** The wire format of one slot. *)
Record bpfInstruction : Type := mkBpf {
  bi_OpCode : Z;        (* OpCode, uint8 *)
  bi_Registers : Z;     (* bpfRegisters, uint8 *)
  bi_Offset : Z;        (* int16 *)
  bi_Constant : Z       (* int32 *)
}.

(** The values the fields of a slot can hold. *)
Record wf_bpfInstruction (bi : bpfInstruction) : Prop := {
  wf_bi_OpCode : is_uint8 (bi_OpCode bi);
  wf_bi_Registers : is_uint8 (bi_Registers bi);
  wf_bi_Offset : is_int16 (bi_Offset bi);
  wf_bi_Constant : is_int32 (bi_Constant bi)
}.

Definition InstructionSize : Z := 8.

(** [newBPFRegisters]: the operands are [uint8], so is the result. *)
Definition newBPFRegisters (dst src : Z) : Z :=
  uint8 (Z.lor (uint8 (Z.shiftl src 4)) (Z.land dst 15)).

(** [bpfRegisters.Dst] and [bpfRegisters.Src] *)
Definition bpfRegisters_Dst (r : Z) : Z := Z.land r 15.
Definition bpfRegisters_Src (r : Z) : Z := Z.shiftr r 4.

(** [binary.Write(w, bo, &bpfi)]: the fields in declaration order. *)
Definition encode_slot (bo : ByteOrder) (bi : bpfInstruction) : list byte :=
  [byte_of_Z (bi_OpCode bi); byte_of_Z (bi_Registers bi)]
  ++ PutUint16 bo (uint16 (bi_Offset bi))
  ++ PutUint32 bo (uint32 (bi_Constant bi)).

Definition binary_Write (w : Writer) (bo : ByteOrder) (bi : bpfInstruction)
  : Writer * option error :=
  Buffer_Write w (encode_slot bo bi).

(** [binary.Read(r, bo, &bi)] *)
Definition decode_slot (bo : ByteOrder) (bs : list byte) : bpfInstruction :=
  match bs with
  | [b0; b1; b2; b3; b4; b5; b6; b7] =>
      mkBpf (Z_of_byte b0) (Z_of_byte b1)
            (int16 (Uint16 bo b2 b3)) (int32 (Uint32 bo b4 b5 b6 b7))
  | _ => mkBpf 0 0 0 0
  end.

Definition binary_Read (r : Reader) (bo : ByteOrder)
  : Reader * result bpfInstruction :=
  match ReadFull 8 r with
  | (r', Err e) => (r', Err e)
  | (r', Ok bs) => (r', Ok (decode_slot bo bs))
  end.

(** [IsUnreferencedSymbol]: the type assertion looks at the error itself,
    not at what it wraps. *)
Definition IsUnreferencedSymbol (err : error) : bool :=
  match err with
  | unreferencedSymbolError _ => true
  | _ => false
  end.

Section Asm.

Set Default Proof Using "Type".

(** The opcode type of package [asm], declared outside instruction.go:
    the invalid opcode, the test for a 64 bit immediate load, the class
    and the jump operation of an opcode with the two values they are
    compared with, and the pseudo registers. *)
Variable InvalidOpCode : Z.
Variable isDWordLoad : Z -> bool.
Variable Class : Z -> Z.
Variable JumpClass : Z.
Variable JumpOp : Z -> Z.
Variable Call : Z.
Variables PseudoMapFD PseudoMapValue PseudoCall : Z.

(** Modelled from the spec: [OpCode.marshalledInstructions] is declared
    outside instruction.go; it is the number of slots an opcode takes,
    2 for a 64 bit immediate load and 1 for every other opcode. *)
Definition marshalledInstructions (op : Z) : Z :=
  if isDWordLoad op then 2 else 1.

(** *** [Instruction.Unmarshal] *)
Definition Unmarshal (ins : Instruction) (r : Reader) (bo : ByteOrder)
  : Instruction * Reader * result Z :=
  match binary_Read r bo with
  | (r1, Err err) => (ins, r1, Err err)
  | (r1, Ok bi) =>
      let ins1 :=
        mkInstruction (bi_OpCode bi)
                      (bpfRegisters_Dst (bi_Registers bi))
                      (bpfRegisters_Src (bi_Registers bi))
                      (bi_Offset bi)
                      (int64 (bi_Constant bi))
                      (Reference ins) (Symbol ins) in
      if negb (isDWordLoad (bi_OpCode bi)) then
        (ins1, r1, Ok InstructionSize)
      else
        match binary_Read r1 bo with
        | (r2, Err _) => (ins1, r2, Err ErrMissingSecondHalf)
        | (r2, Ok bi2) =>
            if negb (bi_OpCode bi2 =? 0) || negb (bi_Offset bi2 =? 0)
               || negb (bi_Registers bi2 =? 0)
            then (ins1, r2, Err ErrNonZeroFields)
            else
              (set_Constant
                 (int64 (Z.lor
                           (uint64 (Z.shiftl (uint64 (uint32 (bi_Constant bi2))) 32))
                           (uint64 (uint32 (bi_Constant bi)))))
                 ins1,
               r2, Ok (2 * InstructionSize))
        end
  end.

(** *** [Instruction.Marshal] *)
Definition Marshal (ins : Instruction) (w : Writer) (bo : ByteOrder)
  : Writer * result Z :=
  if OpCode ins =? InvalidOpCode then (w, Err ErrInvalidOpcode)
  else
    let cons :=
      if isDWordLoad (OpCode ins) then int32 (uint32 (Constant ins))
      else int32 (Constant ins) in
    let bpfi :=
      mkBpf (OpCode ins) (newBPFRegisters (Dst ins) (Src ins))
            (Offset ins) cons in
    match binary_Write w bo bpfi with
    | (w1, Some err) => (w1, Err err)
    | (w1, None) =>
        if negb (isDWordLoad (OpCode ins)) then (w1, Ok InstructionSize)
        else
          let bpfi2 := mkBpf 0 0 0 (int32 (Z.shiftr (Constant ins) 32)) in
          match binary_Write w1 bo bpfi2 with
          | (w2, Some err) => (w2, Err err)
          | (w2, None) => (w2, Ok (2 * InstructionSize))
          end
    end.

(** *** [Instruction.RewriteMapPtr] *)
Definition RewriteMapPtr (ins : Instruction) (fd : Z)
  : Instruction * option error :=
  if negb (isDWordLoad (OpCode ins)) then
    (ins, Some (ErrNot64BitLoad (OpCode ins)))
  else if negb (Src ins =? PseudoMapFD) && negb (Src ins =? PseudoMapValue)
  then (ins, Some ErrNotMapLoad)
  else
    let offset :=
      Z.land (uint64 (Constant ins)) (uint64 (Z.shiftl MaxUint32 32)) in
    let rawFd := uint64 (uint32 fd) in
    (set_Constant (int64 (Z.lor offset rawFd)) ins, None).

(** [mapPtr] *)
Definition mapPtr (ins : Instruction) : Z :=
  uint32 (Z.land (uint64 (Constant ins)) MaxUint32).

(** *** [Instruction.RewriteMapOffset] *)
Definition RewriteMapOffset (ins : Instruction) (offset : Z)
  : Instruction * option error :=
  if negb (isDWordLoad (OpCode ins)) then
    (ins, Some (ErrNot64BitLoad (OpCode ins)))
  else if negb (Src ins =? PseudoMapValue) then
    (ins, Some ErrNotDirectMapLoad)
  else
    let fd := Z.land (uint64 (Constant ins)) MaxUint32 in
    (set_Constant (int64 (Z.lor (uint64 (Z.shiftl (uint64 offset) 32)) fd)) ins,
     None).

(** [mapOffset] *)
Definition mapOffset (ins : Instruction) : Z :=
  uint32 (Z.shiftr (uint64 (Constant ins)) 32).

(** *** [Instructions.RewriteMapPtr]

    The loop over [insns], with [found] as its state; the slice is
    rewritten in place, so that the instructions rewritten before an
    error stay rewritten. *)
Fixpoint RewriteMapPtr_loop (symbol : string) (fd : Z) (found : bool)
         (insns : list Instruction) : list Instruction * result bool :=
  match insns with
  | [] => ([], Ok found)
  | ins :: rest =>
      if negb (String.eqb (Reference ins) symbol) then
        let '(rest', res) := RewriteMapPtr_loop symbol fd found rest in
        (ins :: rest', res)
      else
        match RewriteMapPtr ins fd with
        | (ins', Some err) => (ins' :: rest, Err err)
        | (ins', None) =>
            let '(rest', res) := RewriteMapPtr_loop symbol fd true rest in
            (ins' :: rest', res)
        end
  end.

Definition Instructions_RewriteMapPtr (insns : list Instruction)
           (symbol : string) (fd : Z) : list Instruction * option error :=
  if String.eqb symbol "" then (insns, Some ErrEmptySymbol)
  else
    match RewriteMapPtr_loop symbol fd false insns with
    | (insns', Err err) => (insns', Some err)
    | (insns', Ok found) =>
        if negb found then (insns', Some (unreferencedSymbolError symbol))
        else (insns', None)
    end.

(** *** [Instructions.SymbolOffsets] *)
Fixpoint SymbolOffsets_loop (offsets : gmap string Z) (i : Z)
         (insns : list Instruction) : result (gmap string Z) :=
  match insns with
  | [] => Ok offsets
  | ins :: rest =>
      if String.eqb (Symbol ins) "" then SymbolOffsets_loop offsets (i + 1) rest
      else
        match offsets !! Symbol ins with
        | Some _ => Err (ErrDuplicateSymbol (Symbol ins))
        | None => SymbolOffsets_loop (<[Symbol ins := i]> offsets) (i + 1) rest
        end
  end.

Definition SymbolOffsets (insns : list Instruction) : result (gmap string Z) :=
  SymbolOffsets_loop ∅ 0 insns.

(** *** [Instructions.ReferenceOffsets] *)
Fixpoint ReferenceOffsets_loop (offsets : gmap string (list Z)) (i : Z)
         (insns : list Instruction) : gmap string (list Z) :=
  match insns with
  | [] => offsets
  | ins :: rest =>
      if String.eqb (Reference ins) "" then
        ReferenceOffsets_loop offsets (i + 1) rest
      else
        ReferenceOffsets_loop
          (<[Reference ins := default [] (offsets !! Reference ins) ++ [i]]> offsets)
          (i + 1) rest
  end.

Definition ReferenceOffsets (insns : list Instruction) : gmap string (list Z) :=
  ReferenceOffsets_loop ∅ 0 insns.

(** *** [Instructions.marshalledOffsets] *)
Fixpoint marshalledOffsets_loop (symbols : gmap string Z) (marshalledPos : Z)
         (insns : list Instruction) : result (gmap string Z) :=
  match insns with
  | [] => Ok symbols
  | ins :: rest =>
      let currentPos := marshalledPos in
      let marshalledPos := marshalledPos + marshalledInstructions (OpCode ins) in
      if String.eqb (Symbol ins) "" then
        marshalledOffsets_loop symbols marshalledPos rest
      else
        match symbols !! Symbol ins with
        | Some _ => Err (ErrDuplicateSymbol (Symbol ins))
        | None =>
            marshalledOffsets_loop (<[Symbol ins := currentPos]> symbols)
                                   marshalledPos rest
        end
  end.

Definition marshalledOffsets (insns : list Instruction) : result (gmap string Z) :=
  marshalledOffsets_loop ∅ 0 insns.

(** The two loops above have one shape: each records, for every
    instruction with a symbol, the position reached so far, and they
    differ in the step that an instruction adds to the position, 1 in
    [SymbolOffsets] and the number of slots in [marshalledOffsets]. *)
Fixpoint offsets_loop (step : Instruction -> Z) (m : gmap string Z) (pos : Z)
         (insns : list Instruction) : result (gmap string Z) :=
  match insns with
  | [] => Ok m
  | ins :: rest =>
      if String.eqb (Symbol ins) "" then offsets_loop step m (pos + step ins) rest
      else
        match m !! Symbol ins with
        | Some _ => Err (ErrDuplicateSymbol (Symbol ins))
        | None => offsets_loop step (<[Symbol ins := pos]> m) (pos + step ins) rest
        end
  end.

(** The position after a sequence. *)
Definition span (step : Instruction -> Z) (insns : list Instruction) : Z :=
  foldr (fun ins n => step ins + n) 0 insns.

(** The symbols a sequence defines, in order. *)
Definition symbols_of (insns : list Instruction) : list string :=
  filter (fun s => s <> ""%string) (Symbol <$> insns).

(** *** [Instructions.Marshal]

    [resolve] is the [switch] of the loop body: it works on the loop's
    copy [ins] of the instruction, the slice is not changed. *)
Definition resolve (absoluteOffsets : gmap string Z) (i num : Z)
           (ins : Instruction) : result Instruction :=
  if (JumpOp (OpCode ins) =? Call) && (Constant ins =? -1) then
    match absoluteOffsets !! Reference ins with
    | None => Err (ErrMissingSymbol i (Reference ins))
    | Some offset =>
        (* int64(offset - num - 1): every int is an int64 *)
        Ok (set_Constant (offset - num - 1) ins)
    end
  else if (Class (OpCode ins) =? JumpClass) && (Offset ins =? -1) then
    match absoluteOffsets !! Reference ins with
    | None => Err (ErrMissingSymbol i (Reference ins))
    | Some offset => Ok (set_Offset (int16 (offset - num - 1)) ins)
    end
  else Ok ins.

Fixpoint Marshal_loop (absoluteOffsets : gmap string Z) (i num : Z)
         (insns : list Instruction) (w : Writer) (bo : ByteOrder)
  : Writer * option error :=
  match insns with
  | [] => (w, None)
  | ins :: rest =>
      match resolve absoluteOffsets i num ins with
      | Err err => (w, Some err)
      | Ok ins' =>
          match Marshal ins' w bo with
          | (w', Err err) => (w', Some (ErrInstruction i err))
          | (w', Ok n) =>
              Marshal_loop absoluteOffsets (i + 1) (num + n / InstructionSize)
                           rest w' bo
          end
      end
  end.

(** The number of slots a sequence takes. *)
Definition slots (insns : list Instruction) : Z :=
  foldr (fun ins n => marshalledInstructions (OpCode ins) + n) 0 insns.

Definition Instructions_Marshal (insns : list Instruction) (w : Writer)
           (bo : ByteOrder) : Writer * option error :=
  match marshalledOffsets insns with
  | Err err => (w, Some err)
  | Ok absoluteOffsets => Marshal_loop absoluteOffsets 0 0 insns w bo
  end.


(** The bytes [Marshal] writes for an instruction. *)
Definition Marshal_bytes (ins : Instruction) (bo : ByteOrder) : list byte :=
  fst (Marshal ins [] bo).

(** The two cases of the [switch] in [Instructions.Marshal]. *)
Definition pending_call (ins : Instruction) : Prop :=
  JumpOp (OpCode ins) = Call /\ Constant ins = -1.

Definition pending_branch (ins : Instruction) : Prop :=
  ~ pending_call ins /\ Class (OpCode ins) = JumpClass /\ Offset ins = -1.

(** An instruction the loop of [Instructions.Marshal] gets past: its
    opcode is valid and the symbol it waits for, if any, is in the table. *)
Definition encodes (absoluteOffsets : gmap string Z) (ins : Instruction) : Prop :=
  OpCode ins <> InvalidOpCode
  /\ (pending_call ins \/ pending_branch ins ->
      is_Some (absoluteOffsets !! Reference ins)).

(** An instruction [Instruction.RewriteMapPtr] accepts. *)
Definition is_map_load (ins : Instruction) : Prop :=
  isDWordLoad (OpCode ins) = true
  /\ (Src ins = PseudoMapFD \/ Src ins = PseudoMapValue).

(** What the loop of [Instructions.RewriteMapPtr] makes of an instruction
    it gets past. *)
Definition rewritten (symbol : string) (fd : Z) (ins : Instruction)
  : Instruction :=
  if String.eqb (Reference ins) symbol then fst (RewriteMapPtr ins fd) else ins.

(** The indices, counted from [i], of the instructions that refer to [s]. *)
Fixpoint positions_of (s : string) (i : Z) (insns : list Instruction) : list Z :=
  match insns with
  | [] => []
  | ins :: rest =>
      if String.eqb (Reference ins) s then i :: positions_of s (i + 1) rest
      else positions_of s (i + 1) rest
  end.

(** An instruction the [switch] of [Instructions.Marshal] leaves alone and
    [Marshal] accepts. *)
Definition plain (ins : Instruction) : Prop :=
  OpCode ins <> InvalidOpCode /\ ~ pending_call ins /\ ~ pending_branch ins.

(** ** Arithmetic of the conversions *)

(** Goals on [mod] and [/] by constants, as linear arithmetic. *)
Ltac euclid := Z.div_mod_to_equations; lia.

(** At the start of a proof: keep the parameters of the section that the
    statement mentions. *)
Ltac statement_only :=
  repeat match goal with x : _ |- _ => clear x end.

Lemma Z_of_byte_range b : 0 <= Z_of_byte b < 256.
Proof.
  unfold Z_of_byte. pose proof (Byte.to_N_bounded b) as H. lia.
Qed.

Lemma Z_of_byte_of_Z z : Z_of_byte (byte_of_Z z) = uint8 z.
Proof.
  unfold byte_of_Z, Z_of_byte.
  assert (Hr : 0 <= uint8 z < 256)
    by (unfold uint8; apply Z.mod_pos_bound; lia).
  destruct (Byte.of_N (Z.to_N (uint8 z))) as [b|] eqn:E.
  - apply Byte.to_of_N in E. rewrite E. lia.
  - apply Byte.of_N_None_iff in E. lia.
Qed.

Lemma testbit_high a k n :
  0 <= a < 2 ^ k -> 0 <= k <= n -> Z.testbit a n = false.
Proof.
  intros Ha Hk. rewrite <- (Z.mod_small a (2 ^ k)) by assumption.
  apply Z.mod_pow2_bits_high. assumption.
Qed.

(** An or of two values with no bit in common is their sum. *)
Lemma lor_shiftl_add a b k :
  0 <= k -> 0 <= a < 2 ^ k -> Z.lor a (Z.shiftl b k) = a + b * 2 ^ k.
Proof.
  intros Hk Ha.
  assert (Hland : Z.land a (b * 2 ^ k) = 0).
  { apply Z.bits_inj'; intros n Hn. rewrite Z.land_spec, Z.bits_0.
    destruct (Z.lt_ge_cases n k) as [Hlt|Hge].
    - rewrite Z.mul_pow2_bits_low by lia. apply andb_false_r.
    - rewrite (testbit_high a k n) by lia. reflexivity. }
  rewrite Z.shiftl_mul_pow2 by lia.
  rewrite <- Z.lxor_lor by exact Hland.
  symmetry. apply Z.add_nocarry_lxor. exact Hland.
Qed.

Lemma land_MaxUint32 x : Z.land x MaxUint32 = x mod 2 ^ 32.
Proof. change MaxUint32 with (Z.ones 32). apply Z.land_ones. lia. Qed.

Lemma land_high_mask x :
  Z.land x (Z.shiftl MaxUint32 32) = (x / 2 ^ 32) mod 2 ^ 32 * 2 ^ 32.
Proof.
  change MaxUint32 with (Z.ones 32).
  rewrite <- Z.shiftl_mul_pow2, <- Z.land_ones, <- Z.shiftr_div_pow2 by lia.
  apply Z.bits_inj'; intros n Hn.
  rewrite Z.land_spec.
  destruct (Z.lt_ge_cases n 32) as [Hlt|Hge].
  - rewrite !Z.shiftl_spec_low by lia. apply andb_false_r.
  - rewrite !Z.shiftl_spec by lia.
    rewrite Z.land_spec, Z.shiftr_spec by lia.
    replace (n - 32 + 32) with n by lia. reflexivity.
Qed.

Lemma combine16 b0 b1 :
  0 <= b0 < 256 ->
  Z.lor b0 (Z.shiftl b1 8) = b0 + b1 * 2 ^ 8.
Proof. intros H0. apply lor_shiftl_add; lia. Qed.

Lemma combine32 b0 b1 b2 b3 :
  0 <= b0 < 256 -> 0 <= b1 < 256 -> 0 <= b2 < 256 -> 0 <= b3 < 256 ->
  Z.lor (Z.lor (Z.lor b0 (Z.shiftl b1 8)) (Z.shiftl b2 16)) (Z.shiftl b3 24)
  = b0 + b1 * 2 ^ 8 + b2 * 2 ^ 16 + b3 * 2 ^ 24.
Proof.
  intros H0 H1 H2 H3.
  rewrite (lor_shiftl_add b0 b1 8) by lia.
  rewrite (lor_shiftl_add _ b2 16) by lia.
  rewrite (lor_shiftl_add _ b3 24) by lia.
  reflexivity.
Qed.

(** ** One slot on the wire *)

Lemma length_encode_slot bo bi : length (encode_slot bo bi) = 8%nat.
Proof. destruct bo; reflexivity. Qed.

Lemma decode_encode_slot bo bi :
  wf_bpfInstruction bi -> decode_slot bo (encode_slot bo bi) = bi.
Proof. statement_only.
  intros [Hop Hregs Hoff Hcons]. destruct bi as [op regs off c].
  unfold is_uint8, is_int16, is_int32 in *. cbn in Hop, Hregs, Hoff, Hcons.
  destruct bo; cbn [encode_slot decode_slot PutUint16 PutUint32 Uint16 Uint32
                    app bi_OpCode bi_Registers bi_Offset bi_Constant];
    rewrite !Z_of_byte_of_Z; unfold uint8, uint16, uint32, int16, int32;
    rewrite !Z.shiftr_div_pow2 by lia;
    (rewrite combine16 by (apply Z.mod_pos_bound; lia));
    (rewrite combine32 by (apply Z.mod_pos_bound; lia));
    f_equal; euclid.
Qed.

Lemma ReadFull_app bs rest :
  length bs = 8%nat -> ReadFull 8 (bs ++ rest) = (rest, Ok bs).
Proof.
  intros Hlen. unfold ReadFull.
  destruct (bs ++ rest) as [|b l] eqn:E.
  { destruct bs; discriminate. }
  rewrite <- E.
  replace (length (bs ++ rest) <? 8)%nat with false.
  - rewrite drop_app_length' by done.
    rewrite take_app_length' by done. reflexivity.
  - symmetry. apply Nat.ltb_ge. rewrite length_app. lia.
Qed.

Lemma ReadFull_short r :
  (length r < 8)%nat -> exists r' e, ReadFull 8 r = (r', Err e).
Proof.
  intros Hlen. unfold ReadFull. destruct r as [|b l]; [eauto|].
  apply Nat.ltb_lt in Hlen. rewrite Hlen. eauto.
Qed.

Lemma binary_Read_app bo bs rest :
  length bs = 8%nat ->
  binary_Read (bs ++ rest) bo = (rest, Ok (decode_slot bo bs)).
Proof.
  intros Hlen. unfold binary_Read. rewrite ReadFull_app by exact Hlen.
  reflexivity.
Qed.

Lemma binary_Read_short bo r :
  (length r < 8)%nat -> exists r' e, binary_Read r bo = (r', Err e).
Proof.
  intros Hlen. unfold binary_Read.
  destruct (ReadFull_short r Hlen) as (r' & e & ->). eauto.
Qed.

(** ** The packed registers *)

Lemma newBPFRegisters_range dst src : is_uint8 (newBPFRegisters dst src).
Proof. unfold newBPFRegisters, is_uint8, uint8. apply Z.mod_pos_bound. lia. Qed.

Lemma newBPFRegisters_add dst src :
  0 <= dst < 16 -> 0 <= src < 16 -> newBPFRegisters dst src = dst + src * 16.
Proof.
  intros Hd Hs. unfold newBPFRegisters, uint8.
  change 15 with (Z.ones 4). rewrite Z.land_ones by lia.
  rewrite Z.shiftl_mul_pow2 by lia.
  rewrite (Z.mod_small (src * 2 ^ 4)) by lia.
  rewrite (Z.mod_small dst) by lia.
  rewrite <- Z.shiftl_mul_pow2 by lia.
  rewrite Z.lor_comm, lor_shiftl_add by lia.
  rewrite Z.mod_small by lia. reflexivity.
Qed.

Lemma bpfRegisters_Dst_new dst src :
  0 <= dst < 16 -> 0 <= src < 16 ->
  bpfRegisters_Dst (newBPFRegisters dst src) = dst.
Proof. statement_only.
  intros Hd Hs. rewrite newBPFRegisters_add by assumption.
  unfold bpfRegisters_Dst. change 15 with (Z.ones 4).
  rewrite Z.land_ones by lia. euclid.
Qed.

Lemma bpfRegisters_Src_new dst src :
  0 <= dst < 16 -> 0 <= src < 16 ->
  bpfRegisters_Src (newBPFRegisters dst src) = src.
Proof. statement_only.
  intros Hd Hs. rewrite newBPFRegisters_add by assumption.
  unfold bpfRegisters_Src. rewrite Z.shiftr_div_pow2 by lia.
  euclid.
Qed.

(** ** The 64 bit constant over two slots *)

Lemma int32_range z : is_int32 (int32 z).
Proof. statement_only. unfold is_int32, int32. euclid. Qed.

Lemma int64_int32 z : is_int32 z -> int64 z = z.
Proof. statement_only. unfold is_int32, int64. intros H. euclid. Qed.

(** What [Unmarshal] computes from the two halves, without the
    conversions that change nothing. *)
Lemma combine_halves c1 c2 :
  Z.lor (uint64 (Z.shiftl (uint64 (uint32 c2)) 32)) (uint64 (uint32 c1))
  = uint32 c1 + uint32 c2 * 2 ^ 32.
Proof.
  unfold uint64, uint32.
  assert (H1 : 0 <= c1 mod 2 ^ 32 < 2 ^ 32) by (apply Z.mod_pos_bound; lia).
  assert (H2 : 0 <= c2 mod 2 ^ 32 < 2 ^ 32) by (apply Z.mod_pos_bound; lia).
  rewrite (Z.mod_small (c2 mod 2 ^ 32)) by lia.
  rewrite (Z.mod_small (c1 mod 2 ^ 32)) by lia.
  rewrite (Z.mod_small (Z.shiftl _ 32))
    by (rewrite Z.shiftl_mul_pow2 by lia; lia).
  rewrite Z.lor_comm. apply lor_shiftl_add; lia.
Qed.

Lemma split_combine c :
  is_int64 c ->
  int64 (uint32 (int32 (uint32 c))
         + uint32 (int32 (Z.shiftr c 32)) * 2 ^ 32) = c.
Proof. statement_only.
  unfold is_int64, int64, uint32, int32. intros H.
  rewrite Z.shiftr_div_pow2 by lia.
  euclid.
Qed.

(** ** [Marshal] and [Unmarshal] *)

(** The slots [Marshal] writes for an instruction. *)
Lemma Marshal_slots ins w bo :
  OpCode ins <> InvalidOpCode ->
  Marshal ins w bo =
    if isDWordLoad (OpCode ins) then
      (w ++ (encode_slot bo (mkBpf (OpCode ins)
                                   (newBPFRegisters (Dst ins) (Src ins))
                                   (Offset ins)
                                   (int32 (uint32 (Constant ins))))
             ++ encode_slot bo (mkBpf 0 0 0 (int32 (Z.shiftr (Constant ins) 32)))),
       Ok 16)
    else
      (w ++ encode_slot bo (mkBpf (OpCode ins)
                                  (newBPFRegisters (Dst ins) (Src ins))
                                  (Offset ins) (int32 (Constant ins))),
       Ok 8).
Proof.
  intros Hop. unfold Marshal.
  apply Z.eqb_neq in Hop. rewrite Hop.
  unfold binary_Write, Buffer_Write.
  destruct (isDWordLoad (OpCode ins)); cbn [negb].
  - rewrite <- app_assoc. reflexivity.
  - reflexivity.
Qed.

Lemma wf_first_slot ins c :
  wf_Instruction ins -> is_int32 c ->
  wf_bpfInstruction (mkBpf (OpCode ins) (newBPFRegisters (Dst ins) (Src ins))
                           (Offset ins) c).
Proof.
  intros [Hop _ _ Hoff _] Hc. constructor; cbn; try assumption.
  apply newBPFRegisters_range.
Qed.

Lemma wf_second_slot c : is_int32 c -> wf_bpfInstruction (mkBpf 0 0 0 c).
Proof.
  intros Hc. constructor; cbn; try assumption;
    unfold is_uint8, is_int16; lia.
Qed.

(** C1, as amended: an instruction with a valid opcode, registers in the
    4 bit range and, unless it is a 64 bit load, a constant that fits 32
    bits, is decoded from its encoding with the same opcode, registers,
    offset and constant, under either byte order; [Unmarshal] leaves the
    reference and the symbol of its receiver as they were; it reports the
    byte count [Marshal] reported, 16 for a 64 bit load and 8 otherwise,
    and consumes exactly these bytes.  The constant 0x1_0000_0001 of a
    64 bit load is written as 1 in the first slot and 1 in the second. *)
Theorem Unmarshal_Marshal_roundtrip
        (ins ins0 : Instruction) (w : Writer) (rest : Reader) (bo : ByteOrder) :
  wf_Instruction ins ->
  OpCode ins <> InvalidOpCode ->
  Dst ins < 16 -> Src ins < 16 ->
  (isDWordLoad (OpCode ins) = false -> is_int32 (Constant ins)) ->
  exists bs n,
    Marshal ins w bo = (w ++ bs, Ok n)
    /\ n = Z.of_nat (length bs)
    /\ n = (if isDWordLoad (OpCode ins) then 16 else 8)
    /\ Unmarshal ins0 (bs ++ rest) bo
       = (mkInstruction (OpCode ins) (Dst ins) (Src ins) (Offset ins)
                        (Constant ins) (Reference ins0) (Symbol ins0),
          rest, Ok n)
    /\ (isDWordLoad (OpCode ins) = true -> Constant ins = 4294967297 ->
        bs = encode_slot bo (mkBpf (OpCode ins)
                                   (newBPFRegisters (Dst ins) (Src ins))
                                   (Offset ins) 1)
             ++ encode_slot bo (mkBpf 0 0 0 1)).
Proof. statement_only.
  intros Hwf Hop Hdst Hsrc Hcons.
  pose proof Hwf as [_ Hd Hs _ Hc]. unfold is_uint8 in Hd, Hs.
  rewrite (Marshal_slots ins w bo Hop).
  destruct (isDWordLoad (OpCode ins)) eqn:Hdw.
  - eexists _, 16. split; [reflexivity|].
    split; [rewrite length_app, !length_encode_slot; reflexivity|].
    split; [reflexivity|]. split.
    + unfold Unmarshal. rewrite <- app_assoc.
      rewrite binary_Read_app by apply length_encode_slot.
      rewrite decode_encode_slot by (apply wf_first_slot; auto using int32_range).
      cbn [bi_OpCode bi_Registers bi_Offset bi_Constant]. rewrite Hdw.
      cbn [negb]. rewrite binary_Read_app by apply length_encode_slot.
      rewrite decode_encode_slot by (apply wf_second_slot, int32_range).
      cbn [bi_OpCode bi_Registers bi_Offset bi_Constant negb orb Z.eqb].
      rewrite combine_halves, split_combine by assumption.
      rewrite bpfRegisters_Dst_new, bpfRegisters_Src_new by lia.
      reflexivity.
    + intros _ ->. reflexivity.
  - eexists _, 8. split; [reflexivity|].
    split; [rewrite length_encode_slot; reflexivity|].
    split; [reflexivity|]. split.
    + unfold Unmarshal.
      rewrite binary_Read_app by apply length_encode_slot.
      rewrite decode_encode_slot by (apply wf_first_slot; auto using int32_range).
      cbn [bi_OpCode bi_Registers bi_Offset bi_Constant]. rewrite Hdw.
      cbn [negb].
      rewrite bpfRegisters_Dst_new, bpfRegisters_Src_new by lia.
      rewrite int64_int32 by apply int32_range.
      assert (Hid : int32 (Constant ins) = Constant ins).
      { specialize (Hcons eq_refl). unfold is_int32, int32 in *.
        euclid. }
      rewrite Hid. reflexivity.
    + discriminate.
Qed.

(** C7: when the first slot holds a 64 bit load and the opcode, the
    offset or the registers of the second slot are not zero, [Unmarshal]
    fails with the non-zero fields error, and the receiver holds the
    fields of the first slot only; when the three are zero, it reports
    16 bytes and the constant is the second slot's constant, as
    unsigned 32 bits, shifted left by 32, or the first slot's. *)
Theorem Unmarshal_second_slot
        (ins : Instruction) (bs1 bs2 : list byte) (rest : Reader) (bo : ByteOrder) :
  length bs1 = 8%nat -> length bs2 = 8%nat ->
  isDWordLoad (bi_OpCode (decode_slot bo bs1)) = true ->
  let bi := decode_slot bo bs1 in
  let bi2 := decode_slot bo bs2 in
  let first :=
    mkInstruction (bi_OpCode bi) (bpfRegisters_Dst (bi_Registers bi))
                  (bpfRegisters_Src (bi_Registers bi)) (bi_Offset bi)
                  (bi_Constant bi) (Reference ins) (Symbol ins) in
  (bi_OpCode bi2 <> 0 \/ bi_Offset bi2 <> 0 \/ bi_Registers bi2 <> 0 ->
   Unmarshal ins (bs1 ++ bs2 ++ rest) bo = (first, rest, Err ErrNonZeroFields))
  /\ (bi_OpCode bi2 = 0 /\ bi_Offset bi2 = 0 /\ bi_Registers bi2 = 0 ->
      Unmarshal ins (bs1 ++ bs2 ++ rest) bo
      = (set_Constant
           (int64 (Z.lor (Z.shiftl (uint32 (bi_Constant bi2)) 32)
                         (uint32 (bi_Constant bi))))
           first,
         rest, Ok 16)).
Proof. statement_only.
  intros H1 H2 Hdw bi bi2 first.
  assert (Hfirst : int64 (bi_Constant bi) = bi_Constant bi).
  { apply int64_int32. subst bi. unfold decode_slot.
    do 9 (destruct bs1 as [|? bs1]; try discriminate).
    apply int32_range. }
  unfold Unmarshal.
  rewrite binary_Read_app by exact H1. rewrite Hdw. cbn [negb].
  rewrite binary_Read_app by exact H2. fold bi bi2. rewrite Hfirst. fold first.
  split.
  - intros Hnz.
    destruct (Z.eqb_spec (bi_OpCode bi2) 0), (Z.eqb_spec (bi_Offset bi2) 0),
      (Z.eqb_spec (bi_Registers bi2) 0); cbn [negb orb]; try reflexivity.
    tauto.
  - intros (-> & -> & ->). cbn [negb orb Z.eqb].
    do 3 f_equal. unfold uint64, uint32.
    assert (Ha : 0 <= bi_Constant bi mod 2 ^ 32 < 2 ^ 32)
      by (apply Z.mod_pos_bound; lia).
    assert (Hb : 0 <= bi_Constant bi2 mod 2 ^ 32 < 2 ^ 32)
      by (apply Z.mod_pos_bound; lia).
    rewrite (Z.mod_small (bi_Constant bi mod 2 ^ 32)) by lia.
    rewrite (Z.mod_small (bi_Constant bi2 mod 2 ^ 32)) by lia.
    rewrite (Z.mod_small (Z.shiftl _ 32))
      by (rewrite Z.shiftl_mul_pow2 by lia; lia).
    reflexivity.
Qed.

(** C8: when the first slot holds a 64 bit load and fewer than 8 bytes
    follow it, [Unmarshal] fails with the missing second half error,
    which is not [io.EOF]; on a stream with nothing left it fails with
    [io.EOF] and its receiver is unchanged. *)
Theorem Unmarshal_missing_second_half
        (ins : Instruction) (bs1 tail : list byte) (bo : ByteOrder) :
  length bs1 = 8%nat -> (length tail < 8)%nat ->
  isDWordLoad (bi_OpCode (decode_slot bo bs1)) = true ->
  (exists ins' r',
      Unmarshal ins (bs1 ++ tail) bo = (ins', r', Err ErrMissingSecondHalf))
  /\ ErrMissingSecondHalf <> EOF
  /\ Unmarshal ins [] bo = (ins, [], Err EOF).
Proof.
  intros H1 Htail Hdw. split; [|split; [discriminate|reflexivity]].
  unfold Unmarshal. rewrite binary_Read_app by exact H1.
  rewrite Hdw. cbn [negb].
  destruct (binary_Read_short bo tail Htail) as (r' & e & ->).
  eauto.
Qed.

(** ** The packed map constant *)

Lemma uint64_small x : 0 <= x < 2 ^ 64 -> uint64 x = x.
Proof. apply Z.mod_small. Qed.

Lemma mapPtr_mod ins : mapPtr ins = Constant ins mod 2 ^ 32.
Proof. statement_only.
  unfold mapPtr, uint32, uint64. rewrite land_MaxUint32.
  euclid.
Qed.

Lemma mapOffset_div ins : mapOffset ins = (Constant ins / 2 ^ 32) mod 2 ^ 32.
Proof. statement_only.
  unfold mapOffset, uint32, uint64. rewrite Z.shiftr_div_pow2 by lia.
  euclid.
Qed.

(** The handle and the offset of a constant made of two halves. *)
Lemma unpack_halves ins lo hi :
  0 <= lo < 2 ^ 32 -> 0 <= hi < 2 ^ 32 ->
  Constant ins = int64 (lo + hi * 2 ^ 32) ->
  mapPtr ins = lo /\ mapOffset ins = hi.
Proof. statement_only.
  intros Hlo Hhi HC. rewrite mapPtr_mod, mapOffset_div, HC.
  unfold int64. split; euclid.
Qed.

Lemma RewriteMapPtr_ok ins fd :
  isDWordLoad (OpCode ins) = true ->
  Src ins = PseudoMapFD \/ Src ins = PseudoMapValue ->
  RewriteMapPtr ins fd
  = (set_Constant (int64 (uint32 fd + mapOffset ins * 2 ^ 32)) ins, None).
Proof. statement_only.
  intros Hdw Hsrc. unfold RewriteMapPtr. rewrite Hdw. cbn [negb].
  replace (negb (Src ins =? PseudoMapFD) && negb (Src ins =? PseudoMapValue))
    with false
    by (destruct Hsrc as [-> | ->]; rewrite Z.eqb_refl; cbn;
        rewrite ?andb_false_r; reflexivity).
  do 3 f_equal.
  change (uint64 (Z.shiftl MaxUint32 32)) with (Z.shiftl MaxUint32 32).
  rewrite land_high_mask, mapOffset_div.
  assert (Hfd : 0 <= uint32 fd < 2 ^ 32)
    by (unfold uint32; apply Z.mod_pos_bound; lia).
  rewrite (uint64_small (uint32 fd)) by lia.
  rewrite <- Z.shiftl_mul_pow2 by lia.
  rewrite Z.lor_comm, lor_shiftl_add by lia.
  f_equal. f_equal. unfold uint64. euclid.
Qed.

Lemma RewriteMapOffset_ok ins offset :
  is_uint32 offset ->
  isDWordLoad (OpCode ins) = true ->
  Src ins = PseudoMapValue ->
  RewriteMapOffset ins offset
  = (set_Constant (int64 (mapPtr ins + offset * 2 ^ 32)) ins, None).
Proof. statement_only.
  intros Ho Hdw Hsrc. unfold is_uint32 in Ho. unfold RewriteMapOffset.
  rewrite Hdw, Hsrc, Z.eqb_refl. cbn [negb].
  do 3 f_equal.
  rewrite land_MaxUint32, mapPtr_mod.
  rewrite (uint64_small offset) by lia.
  rewrite (uint64_small (Z.shiftl offset 32))
    by (rewrite Z.shiftl_mul_pow2 by lia; lia).
  rewrite Z.lor_comm, lor_shiftl_add
    by (try apply Z.mod_pos_bound; lia).
  unfold uint64. euclid.
Qed.

(** C5: on a 64 bit load whose source is [PseudoMapValue], the register
    both rewrites accept, [RewriteMapPtr] with [h] and [RewriteMapOffset]
    with [o] succeed in either order and give the same instruction, whose
    [mapPtr] is [h] truncated to 32 bits and whose [mapOffset] is [o];
    [RewriteMapPtr] keeps the offset and [RewriteMapOffset] keeps the
    handle. *)
Theorem map_rewrites_either_order (ins : Instruction) (h o : Z) :
  is_uint32 o ->
  isDWordLoad (OpCode ins) = true ->
  Src ins = PseudoMapValue ->
  exists a b a' b',
    RewriteMapPtr ins h = (a, None) /\ RewriteMapOffset a o = (b, None)
    /\ RewriteMapOffset ins o = (a', None) /\ RewriteMapPtr a' h = (b', None)
    /\ b = b'
    /\ mapPtr b = uint32 h /\ mapOffset b = o
    /\ mapOffset a = mapOffset ins
    /\ mapPtr a' = mapPtr ins.
Proof.
  intros Ho Hdw Hsrc.
  assert (Hh : 0 <= uint32 h < 2 ^ 32)
    by (unfold uint32; apply Z.mod_pos_bound; lia).
  assert (Hp : 0 <= mapPtr ins < 2 ^ 32)
    by (rewrite mapPtr_mod; apply Z.mod_pos_bound; lia).
  assert (Hq : 0 <= mapOffset ins < 2 ^ 32)
    by (rewrite mapOffset_div; apply Z.mod_pos_bound; lia).
  set (a := set_Constant (int64 (uint32 h + mapOffset ins * 2 ^ 32)) ins).
  set (a' := set_Constant (int64 (mapPtr ins + o * 2 ^ 32)) ins).
  destruct (unpack_halves a (uint32 h) (mapOffset ins) Hh Hq eq_refl)
    as [Hap Hao].
  destruct (unpack_halves a' (mapPtr ins) o Hp Ho eq_refl) as [Ha'p Ha'o].
  set (b := set_Constant (int64 (uint32 h + o * 2 ^ 32)) ins).
  destruct (unpack_halves b (uint32 h) o Hh Ho eq_refl) as [Hbp Hbo].
  exists a, b, a', b.
  split; [apply RewriteMapPtr_ok; auto|].
  split; [rewrite (RewriteMapOffset_ok a o Ho Hdw Hsrc), Hap; reflexivity|].
  split; [apply RewriteMapOffset_ok; auto|].
  split; [rewrite (RewriteMapPtr_ok a' h Hdw (or_intror Hsrc)), Ha'o;
          reflexivity|].
  auto.
Qed.

(** C9, as amended: [RewriteMapOffset] fails exactly when the instruction
    is not a 64 bit load or its source is not [PseudoMapValue], and then
    leaves the instruction as it was; for a 64 bit load from
    [PseudoMapValue] it succeeds, keeps the low 32 bits of the constant
    and puts the offset in the high 32 bits, changing no other field. *)
Theorem RewriteMapOffset_fails_iff (ins : Instruction) (o : Z) :
  is_uint32 o ->
  (snd (RewriteMapOffset ins o) <> None
   <-> isDWordLoad (OpCode ins) = false \/ Src ins <> PseudoMapValue)
  /\ (snd (RewriteMapOffset ins o) <> None -> fst (RewriteMapOffset ins o) = ins)
  /\ (isDWordLoad (OpCode ins) = true -> Src ins = PseudoMapValue ->
      exists ins',
        RewriteMapOffset ins o = (ins', None)
        /\ mapPtr ins' = mapPtr ins /\ mapOffset ins' = o
        /\ ins' = set_Constant (Constant ins') ins).
Proof.
  intros Ho.
  assert (Hp : 0 <= mapPtr ins < 2 ^ 32)
    by (rewrite mapPtr_mod; apply Z.mod_pos_bound; lia).
  split; [|split].
  - unfold RewriteMapOffset.
    destruct (isDWordLoad (OpCode ins)); cbn [negb snd].
    + destruct (Z.eqb_spec (Src ins) PseudoMapValue) as [He|Hne];
        cbn [negb snd]; split; intros H; try congruence; auto.
      destruct H; congruence.
    + split; [auto | discriminate].
  - unfold RewriteMapOffset.
    destruct (isDWordLoad (OpCode ins)); cbn [negb]; [|reflexivity].
    destruct (Src ins =? PseudoMapValue); cbn [negb snd fst];
      [congruence | reflexivity].
  - intros Hdw Hsrc. eexists. split; [apply RewriteMapOffset_ok; auto|].
    destruct (unpack_halves
                (set_Constant (int64 (mapPtr ins + o * 2 ^ 32)) ins)
                (mapPtr ins) o Hp Ho eq_refl) as [H1 H2].
    auto.
Qed.

(** ** The symbol tables *)

Lemma SymbolOffsets_loop_eq m i insns :
  SymbolOffsets_loop m i insns = offsets_loop (fun _ => 1) m i insns.
Proof.
  revert m i. induction insns as [|ins rest IH]; intros m i; cbn; [reflexivity|].
  destruct (String.eqb (Symbol ins) ""); [apply IH|].
  destruct (m !! Symbol ins); [reflexivity | apply IH].
Qed.

Lemma marshalledOffsets_loop_eq m p insns :
  marshalledOffsets_loop m p insns
  = offsets_loop (fun ins => marshalledInstructions (OpCode ins)) m p insns.
Proof.
  revert m p. induction insns as [|ins rest IH]; intros m p; cbn; [reflexivity|].
  destruct (String.eqb (Symbol ins) ""); [apply IH|].
  destruct (m !! Symbol ins); [reflexivity | apply IH].
Qed.

Lemma span_one insns : span (fun _ => 1) insns = Z.of_nat (length insns).
Proof.
  unfold span. induction insns as [|ins rest IH]; cbn [foldr length];
    [reflexivity | rewrite IH; lia].
Qed.

Lemma span_app step l1 l2 : span step (l1 ++ l2) = span step l1 + span step l2.
Proof.
  unfold span. induction l1 as [|ins rest IH]; cbn [foldr app];
    [reflexivity | rewrite IH; lia].
Qed.

Lemma slots_span insns :
  slots insns = span (fun ins => marshalledInstructions (OpCode ins)) insns.
Proof. reflexivity. Qed.

Lemma slots_app l1 l2 : slots l1 + slots l2 = slots (l1 ++ l2).
Proof.
  symmetry. apply (span_app (fun ins => marshalledInstructions (OpCode ins))).
Qed.

Lemma slots_count insns :
  slots insns
  = Z.of_nat (length insns)
    + Z.of_nat (length (filter (fun ins => isDWordLoad (OpCode ins) = true) insns)).
Proof.
  induction insns as [|ins rest IH]; [reflexivity|].
  cbn [slots foldr]. fold (slots rest). rewrite IH, filter_cons.
  unfold marshalledInstructions.
  destruct (decide (isDWordLoad (OpCode ins) = true)) as [-> | Hn].
  - cbn [length]. lia.
  - apply not_true_is_false in Hn. rewrite Hn. cbn [length]. lia.
Qed.

Section Offsets.
Variable step : Instruction -> Z.

(** What is in the table stays in it. *)
Lemma offsets_loop_mono insns : forall m p m' s v,
  offsets_loop step m p insns = Ok m' -> m !! s = Some v -> m' !! s = Some v.
Proof.
  induction insns as [|ins rest IH]; intros m p m' s v Hok Hs; cbn in Hok.
  { congruence. }
  destruct (String.eqb (Symbol ins) ""); [eauto|].
  destruct (m !! Symbol ins) eqn:E; [discriminate|].
  eapply IH; [exact Hok|].
  rewrite lookup_insert_ne; [exact Hs | congruence].
Qed.

(** A symbol of the sequence was not in the table before and is at
    the position of its instruction after. *)
Lemma offsets_loop_sound insns : forall m p m' i ins,
  offsets_loop step m p insns = Ok m' ->
  insns !! i = Some ins -> Symbol ins <> ""%string ->
  m !! Symbol ins = None
  /\ m' !! Symbol ins = Some (p + span step (take i insns)).
Proof.
  induction insns as [|ins0 rest IH]; intros m p m' i ins Hok Hi Hs;
    [discriminate|].
  cbn in Hok. destruct i as [|i]; cbn in Hi.
  - injection Hi as ->.
    apply String.eqb_neq in Hs. rewrite Hs in Hok.
    destruct (m !! Symbol ins) eqn:E; [discriminate|].
    split; [reflexivity|]. cbn. rewrite Z.add_0_r.
    eapply offsets_loop_mono; [exact Hok | apply lookup_insert_eq].
  - cbn [take span foldr]. fold (span step (take i rest)).
    destruct (String.eqb (Symbol ins0) "").
    + destruct (IH _ _ _ _ _ Hok Hi Hs) as [H1 H2]. split; [exact H1|].
      rewrite H2. f_equal. lia.
    + destruct (m !! Symbol ins0) eqn:E; [discriminate|].
      destruct (IH _ _ _ _ _ Hok Hi Hs) as [H1 H2].
      apply lookup_insert_None in H1 as [H1 _]. split; [exact H1|].
      rewrite H2. f_equal. lia.
Qed.

(** After a success no two instructions share a symbol. *)
Lemma offsets_loop_distinct insns : forall m p m' i j a b,
  offsets_loop step m p insns = Ok m' ->
  (i < j)%nat -> insns !! i = Some a -> insns !! j = Some b ->
  Symbol a <> ""%string -> Symbol a <> Symbol b.
Proof.
  induction insns as [|ins0 rest IH]; intros m p m' i j a b Hok Hij Hi Hj Ha Hab;
    [discriminate|].
  cbn in Hok. destruct j as [|j]; [lia|]. cbn in Hj.
  destruct i as [|i]; cbn in Hi.
  - injection Hi as ->.
    pose proof Ha as Ha'. apply String.eqb_neq in Ha'. rewrite Ha' in Hok.
    destruct (m !! Symbol a) eqn:E; [discriminate|].
    rewrite Hab in Ha.
    destruct (offsets_loop_sound _ _ _ _ _ _ Hok Hj Ha) as [Hnone _].
    rewrite <- Hab, lookup_insert_eq in Hnone. discriminate.
  - destruct (String.eqb (Symbol ins0) "").
    + eapply (IH _ _ _ i j); eauto; lia.
    + destruct (m !! Symbol ins0); [discriminate|].
      eapply (IH _ _ _ i j); eauto; lia.
Qed.

(** The other symbols are as they were. *)
Lemma offsets_loop_other insns : forall m p m' s,
  offsets_loop step m p insns = Ok m' ->
  s ∉ symbols_of insns -> m' !! s = m !! s.
Proof. statement_only.
  induction insns as [|ins rest IH]; intros m p m' s Hok Hs; cbn in Hok.
  { congruence. }
  unfold symbols_of in Hs. rewrite fmap_cons, filter_cons in Hs.
  destruct (String.eqb_spec (Symbol ins) "") as [He|Hne].
  - rewrite decide_False in Hs by tauto. eauto.
  - rewrite decide_True in Hs by exact Hne.
    apply not_elem_of_cons in Hs as [Hs1 Hs2].
    destruct (m !! Symbol ins); [discriminate|].
    rewrite (IH _ _ _ _ Hok Hs2). apply lookup_insert_ne. congruence.
Qed.

(** Without a repeated symbol the loop succeeds. *)
Lemma offsets_loop_complete insns : forall m p,
  NoDup (symbols_of insns) ->
  (forall s, s ∈ symbols_of insns -> m !! s = None) ->
  exists m', offsets_loop step m p insns = Ok m'.
Proof. statement_only.
  induction insns as [|ins rest IH]; intros m p Hnd Hm; cbn; [eauto|].
  unfold symbols_of in Hnd, Hm. rewrite fmap_cons, filter_cons in Hnd, Hm.
  destruct (String.eqb_spec (Symbol ins) "") as [He|Hne].
  - rewrite decide_False in Hnd, Hm by tauto. apply IH; assumption.
  - rewrite decide_True in Hnd, Hm by exact Hne.
    apply NoDup_cons in Hnd as [Hnotin Hnd].
    rewrite (Hm (Symbol ins)) by apply list_elem_of_here.
    apply IH; [exact Hnd|].
    intros s Hs. rewrite lookup_insert_ne.
    + apply Hm. apply list_elem_of_further. exact Hs.
    + intros <-. apply Hnotin. exact Hs.
Qed.

(** A failure names a symbol that is already in the table or that an
    earlier instruction of the sequence defines. *)
Lemma offsets_loop_error insns : forall m p e,
  offsets_loop step m p insns = Err e ->
  exists s j b,
    e = ErrDuplicateSymbol s /\ s <> ""%string
    /\ insns !! j = Some b /\ Symbol b = s
    /\ (is_Some (m !! s)
        \/ exists i a, (i < j)%nat /\ insns !! i = Some a /\ Symbol a = s).
Proof.
  induction insns as [|ins rest IH]; intros m p e Herr; cbn in Herr;
    [discriminate|].
  destruct (String.eqb_spec (Symbol ins) "") as [He|Hne].
  - destruct (IH _ _ _ Herr) as (s & j & b & -> & Hs & Hj & Hb & Hor).
    exists s, (S j), b. repeat split; try assumption.
    destruct Hor as [Hin | (i & a & Hij & Hi & Ha)]; [left; exact Hin|].
    right. exists (S i), a. repeat split; [lia | exact Hi | exact Ha].
  - destruct (m !! Symbol ins) eqn:E.
    + injection Herr as <-. exists (Symbol ins), 0%nat, ins.
      repeat split; try assumption. left. rewrite E. eauto.
    + destruct (IH _ _ _ Herr) as (s & j & b & -> & Hs & Hj & Hb & Hor).
      exists s, (S j), b. repeat split; try assumption.
      destruct Hor as [Hin | (i & a & Hij & Hi & Ha)].
      * destruct (decide (Symbol ins = s)) as [Heq|Hneq].
        -- right. exists 0%nat, ins. repeat split; [lia | exact Heq].
        -- left. rewrite lookup_insert_ne in Hin; assumption.
      * right. exists (S i), a. repeat split; [lia | exact Hi | exact Ha].
Qed.
End Offsets.

(** The failure does not depend on the step. *)
Lemma offsets_loop_same_error step1 step2 insns : forall m1 m2 p1 p2 e,
  (forall s, m1 !! s = None <-> m2 !! s = None) ->
  offsets_loop step1 m1 p1 insns = Err e ->
  offsets_loop step2 m2 p2 insns = Err e.
Proof.
  induction insns as [|ins rest IH]; intros m1 m2 p1 p2 e Hdom Herr;
    cbn in Herr |- *; [discriminate|].
  destruct (String.eqb (Symbol ins) ""); [eauto|].
  destruct (m1 !! Symbol ins) eqn:E1, (m2 !! Symbol ins) eqn:E2.
  - exact Herr.
  - apply Hdom in E2. congruence.
  - apply Hdom in E1. congruence.
  - eapply IH; [|exact Herr]. intros s.
    destruct (decide (Symbol ins = s)) as [<-|Hne].
    + rewrite !lookup_insert_eq. split; discriminate.
    + rewrite !lookup_insert_ne by exact Hne. apply Hdom.
Qed.

(** C4: when two instructions of a sequence carry the same non-empty
    symbol, [SymbolOffsets] and [marshalledOffsets] both fail with the
    duplicate symbol error, naming a symbol that two instructions carry;
    when no non-empty symbol is repeated, both succeed: [SymbolOffsets]
    maps the symbol of an instruction to its index, [marshalledOffsets]
    maps it to the number of slots of the instructions before it, and
    both have no other entry.  The number of slots of a sequence is its
    length plus the number of its 64 bit loads. *)
Theorem symbol_tables (insns : list Instruction) :
  (forall i j a b,
      (i < j)%nat -> insns !! i = Some a -> insns !! j = Some b ->
      Symbol a <> ""%string -> Symbol a = Symbol b ->
      exists s,
        SymbolOffsets insns = Err (ErrDuplicateSymbol s)
        /\ marshalledOffsets insns = Err (ErrDuplicateSymbol s)
        /\ s <> ""%string
        /\ exists i' j' a' b',
            (i' < j')%nat /\ insns !! i' = Some a' /\ insns !! j' = Some b'
            /\ Symbol a' = s /\ Symbol b' = s)
  /\ (NoDup (symbols_of insns) ->
      exists m1 m2,
        SymbolOffsets insns = Ok m1 /\ marshalledOffsets insns = Ok m2
        /\ (forall i ins,
               insns !! i = Some ins -> Symbol ins <> ""%string ->
               m1 !! Symbol ins = Some (Z.of_nat i)
               /\ m2 !! Symbol ins = Some (slots (take i insns)))
        /\ (forall s, s ∉ symbols_of insns -> m1 !! s = None /\ m2 !! s = None))
  /\ slots insns
     = Z.of_nat (length insns)
       + Z.of_nat (length (filter (fun ins => isDWordLoad (OpCode ins) = true) insns)).
Proof.
  split; [|split; [|apply slots_count]].
  - intros i j a b Hij Hi Hj Ha Hab.
    unfold SymbolOffsets, marshalledOffsets.
    rewrite SymbolOffsets_loop_eq, marshalledOffsets_loop_eq.
    destruct (offsets_loop (fun _ => 1) ∅ 0 insns) as [m|e] eqn:E.
    { exfalso.
      exact (offsets_loop_distinct _ _ _ _ _ _ _ _ _ E Hij Hi Hj Ha Hab). }
    pose proof (offsets_loop_same_error
                  _ (fun ins => marshalledInstructions (OpCode ins))
                  _ ∅ ∅ 0 0 e (fun s => iff_refl _) E) as E2.
    destruct (offsets_loop_error _ _ _ _ _ E)
      as (s & j' & b' & -> & Hs & Hj' & Hb' & Hor).
    exists s. split; [reflexivity|]. split; [exact E2|]. split; [exact Hs|].
    destruct Hor as [Hin | (i' & a' & Hlt & Hi' & Ha')].
    { rewrite lookup_empty in Hin. destruct Hin; discriminate. }
    exists i', j', a', b'. auto.
  - intros Hnd.
    destruct (offsets_loop_complete (fun _ => 1) insns ∅ 0 Hnd) as [m1 Hm1].
    { intros s _. apply lookup_empty. }
    destruct (offsets_loop_complete
                (fun ins => marshalledInstructions (OpCode ins)) insns ∅ 0 Hnd)
      as [m2 Hm2].
    { intros s _. apply lookup_empty. }
    exists m1, m2. unfold SymbolOffsets, marshalledOffsets.
    rewrite SymbolOffsets_loop_eq, marshalledOffsets_loop_eq.
    split; [exact Hm1|]. split; [exact Hm2|]. split.
    + intros i ins Hi Hs.
      destruct (offsets_loop_sound _ _ _ _ _ _ _ Hm1 Hi Hs) as [_ H1].
      destruct (offsets_loop_sound _ _ _ _ _ _ _ Hm2 Hi Hs) as [_ H2].
      rewrite H1, H2, span_one, length_take.
      apply lookup_lt_Some in Hi.
      split; [f_equal; lia | rewrite Z.add_0_l; reflexivity].
    + intros s Hs.
      rewrite (offsets_loop_other _ _ _ _ _ _ Hm1 Hs).
      rewrite (offsets_loop_other _ _ _ _ _ _ Hm2 Hs).
      rewrite lookup_empty. auto.
Qed.

(** ** [Instructions.RewriteMapPtr] *)

Lemma RewriteMapPtr_loop_unreferenced symbol fd found insns :
  Forall (fun ins => Reference ins <> symbol) insns ->
  RewriteMapPtr_loop symbol fd found insns = (insns, Ok found).
Proof.
  induction 1 as [|ins rest Hne _ IH]; cbn; [reflexivity|].
  apply String.eqb_neq in Hne. rewrite Hne. cbn [negb]. rewrite IH.
  reflexivity.
Qed.

(** C10: with the empty string as symbol, [Instructions.RewriteMapPtr]
    fails with the empty symbol error whatever the instructions are,
    and leaves them as they were; the error is not an unreferenced
    symbol error. *)
Theorem RewriteMapPtr_empty_symbol (insns : list Instruction) (fd : Z) :
  Instructions_RewriteMapPtr insns "" fd = (insns, Some ErrEmptySymbol)
  /\ IsUnreferencedSymbol ErrEmptySymbol = false.
Proof. split; reflexivity. Qed.

(** ** The loop of [Instructions.Marshal] *)

Lemma resolve_cases tbl i num ins :
  (pending_call ins /\
   resolve tbl i num ins
   = match tbl !! Reference ins with
     | None => Err (ErrMissingSymbol i (Reference ins))
     | Some offset => Ok (set_Constant (offset - num - 1) ins)
     end)
  \/ (pending_branch ins /\
      resolve tbl i num ins
      = match tbl !! Reference ins with
        | None => Err (ErrMissingSymbol i (Reference ins))
        | Some offset => Ok (set_Offset (int16 (offset - num - 1)) ins)
        end)
  \/ (~ pending_call ins /\ ~ pending_branch ins /\ resolve tbl i num ins = Ok ins).
Proof. statement_only.
  unfold resolve, pending_branch, pending_call.
  destruct (Z.eqb_spec (JumpOp (OpCode ins)) Call) as [H1|H1],
    (Z.eqb_spec (Constant ins) (-1)) as [H2|H2]; cbn [andb];
    try (left; split; [split; assumption | reflexivity]);
    destruct (Z.eqb_spec (Class (OpCode ins)) JumpClass) as [H3|H3],
      (Z.eqb_spec (Offset ins) (-1)) as [H4|H4]; cbn [andb];
    try (right; left; split; [|reflexivity]; tauto);
    right; right; tauto.
Qed.

Lemma resolve_OpCode tbl i num ins ins' :
  resolve tbl i num ins = Ok ins' -> OpCode ins' = OpCode ins.
Proof.
  destruct (resolve_cases tbl i num ins) as [[_ ->] | [[_ ->] | (_ & _ & ->)]];
    destruct (tbl !! Reference ins); intros H; inversion H; reflexivity.
Qed.

Lemma resolve_encodes tbl i num ins :
  encodes tbl ins ->
  exists ins', resolve tbl i num ins = Ok ins' /\ OpCode ins' <> InvalidOpCode.
Proof.
  intros [Hop Hsym].
  destruct (resolve_cases tbl i num ins) as [[Hp ->] | [[Hp ->] | (_ & _ & ->)]].
  - destruct (Hsym (or_introl Hp)) as [t ->]. eauto.
  - destruct (Hsym (or_intror Hp)) as [t ->]. eauto.
  - eauto.
Qed.

Lemma Marshal_ok ins w bo :
  OpCode ins <> InvalidOpCode ->
  Marshal ins w bo
  = (w ++ Marshal_bytes ins bo, Ok (8 * marshalledInstructions (OpCode ins)))
  /\ Z.of_nat (length (Marshal_bytes ins bo))
     = 8 * marshalledInstructions (OpCode ins).
Proof.
  intros Hop. unfold Marshal_bytes, marshalledInstructions.
  rewrite !Marshal_slots by exact Hop.
  destruct (isDWordLoad (OpCode ins)); cbn [fst app]; split; try reflexivity;
    rewrite ?length_app, !length_encode_slot; reflexivity.
Qed.

Lemma Marshal_invalid ins w bo :
  OpCode ins = InvalidOpCode -> Marshal ins w bo = (w, Err ErrInvalidOpcode).
Proof. intros Hop. unfold Marshal. rewrite Hop, Z.eqb_refl. reflexivity. Qed.

(** What the loop writes is added to what was written, and its errors
    are never the unreferenced symbol error. *)
Lemma Marshal_loop_extends tbl bo insns : forall i num w w' e,
  Marshal_loop tbl i num insns w bo = (w', e) ->
  (exists bs, w' = w ++ bs)
  /\ (forall err, e = Some err -> IsUnreferencedSymbol err = false).
Proof.
  induction insns as [|ins rest IH]; intros i num w w' e Hloop; cbn in Hloop.
  { injection Hloop as <- <-. split; [exists []; symmetry; apply app_nil_r|].
    discriminate. }
  destruct (resolve tbl i num ins) as [ins'|err] eqn:Hres.
  - destruct (Z.eq_dec (OpCode ins') InvalidOpCode) as [Hinv|Hop].
    + rewrite (Marshal_invalid _ _ _ Hinv) in Hloop. injection Hloop as <- <-.
      split; [exists []; symmetry; apply app_nil_r|].
      intros err [= <-]. reflexivity.
    + destruct (Marshal_ok ins' w bo Hop) as [HM _]. rewrite HM in Hloop.
      destruct (IH _ _ _ _ _ Hloop) as [[bs ->] He]. split; [|exact He].
      exists (Marshal_bytes ins' bo ++ bs). rewrite app_assoc. reflexivity.
  - injection Hloop as <- <-. split; [exists []; symmetry; apply app_nil_r|].
    intros err0 [= <-].
    destruct (resolve_cases tbl i num ins) as [[_ H] | [[_ H] | (_ & _ & H)]];
      rewrite H in Hres; try discriminate;
      destruct (tbl !! Reference ins); inversion Hres; reflexivity.
Qed.

(** The loop over a sequence in two parts: when the first part is
    written, the counters have advanced by its length and its slots. *)
Lemma Marshal_loop_app tbl bo pre rest : forall i num w,
  Marshal_loop tbl i num (pre ++ rest) w bo
  = match Marshal_loop tbl i num pre w bo with
    | (w1, Some err) => (w1, Some err)
    | (w1, None) =>
        Marshal_loop tbl (i + Z.of_nat (length pre)) (num + slots pre) rest w1 bo
    end.
Proof.
  induction pre as [|ins pre IH]; intros i num w.
  { cbn. rewrite !Z.add_0_r. reflexivity. }
  cbn [app Marshal_loop].
  destruct (resolve tbl i num ins) as [ins'|err] eqn:Hres; [|reflexivity].
  destruct (Z.eq_dec (OpCode ins') InvalidOpCode) as [Hinv|Hop].
  { rewrite (Marshal_invalid _ _ _ Hinv). reflexivity. }
  destruct (Marshal_ok ins' w bo Hop) as [-> _].
  rewrite IH. rewrite (resolve_OpCode _ _ _ _ _ Hres).
  replace (8 * marshalledInstructions (OpCode ins) / InstructionSize)
    with (marshalledInstructions (OpCode ins))
    by (unfold InstructionSize; rewrite Z.mul_comm, Z.div_mul by lia;
        reflexivity).
  cbn [length slots foldr]. fold (slots pre).
  replace (i + 1 + Z.of_nat (length pre)) with (i + Z.of_nat (S (length pre)))
    by lia.
  rewrite Z.add_assoc. reflexivity.
Qed.

(** A part that is written takes 8 bytes for each of its slots. *)
Lemma Marshal_loop_length tbl bo insns : forall i num w w',
  Marshal_loop tbl i num insns w bo = (w', None) ->
  exists bs, w' = w ++ bs /\ Z.of_nat (length bs) = 8 * slots insns.
Proof.
  induction insns as [|ins rest IH]; intros i num w w' Hloop; cbn in Hloop.
  { injection Hloop as <-. exists []. split; [symmetry; apply app_nil_r|].
    reflexivity. }
  destruct (resolve tbl i num ins) as [ins'|err] eqn:Hres; [|discriminate].
  destruct (Z.eq_dec (OpCode ins') InvalidOpCode) as [Hinv|Hop].
  { rewrite (Marshal_invalid _ _ _ Hinv) in Hloop. discriminate. }
  destruct (Marshal_ok ins' w bo Hop) as [HM Hlen]. rewrite HM in Hloop.
  destruct (IH _ _ _ _ Hloop) as (bs & -> & Hbs).
  exists (Marshal_bytes ins' bo ++ bs). split; [rewrite app_assoc; reflexivity|].
  rewrite length_app, Nat2Z.inj_add, Hlen, Hbs.
  rewrite (resolve_OpCode _ _ _ _ _ Hres).
  cbn [slots foldr]. fold (slots rest). lia.
Qed.

(** A part made of instructions that encode is written. *)
Lemma Marshal_loop_encodes tbl bo insns : forall i num w,
  Forall (encodes tbl) insns ->
  exists w', Marshal_loop tbl i num insns w bo = (w', None).
Proof.
  induction insns as [|ins rest IH]; intros i num w Hall; cbn; [eauto|].
  apply Forall_cons in Hall as [Hins Hrest].
  destruct (resolve_encodes tbl i num ins Hins) as (ins' & -> & Hop).
  destruct (Marshal_ok ins' w bo Hop) as [-> _]. apply IH. exact Hrest.
Qed.

(** An entry of the slot table is the position of an instruction that
    carries the symbol. *)
Lemma marshalledOffsets_entry insns tbl s t :
  marshalledOffsets insns = Ok tbl -> tbl !! s = Some t ->
  exists j tgt,
    insns !! j = Some tgt /\ Symbol tgt = s /\ s <> ""%string
    /\ t = slots (take j insns).
Proof.
  unfold marshalledOffsets. rewrite marshalledOffsets_loop_eq. intros Htbl Hs.
  destruct (decide (s ∈ symbols_of insns)) as [Hin|Hnotin].
  - apply list_elem_of_filter in Hin as [Hne Hin].
    apply list_elem_of_fmap in Hin as (tgt & -> & Hin).
    apply list_elem_of_lookup in Hin as [j Hj].
    destruct (offsets_loop_sound _ _ _ _ _ _ _ Htbl Hj Hne) as [_ Hpos].
    rewrite Hs in Hpos. injection Hpos as ->.
    exists j, tgt. rewrite Z.add_0_l. auto.
  - rewrite (offsets_loop_other _ _ _ _ _ _ Htbl Hnotin), lookup_empty in Hs.
    discriminate.
Qed.

(** A program that is written is made of instructions that encode. *)
Lemma Marshal_loop_success tbl bo insns : forall i num w w',
  Marshal_loop tbl i num insns w bo = (w', None) ->
  Forall (encodes tbl) insns.
Proof.
  induction insns as [|ins rest IH]; intros i num w w' Hloop;
    [apply Forall_nil_2|].
  cbn [Marshal_loop] in Hloop.
  destruct (resolve tbl i num ins) as [ins'|err] eqn:Hres; [|discriminate].
  destruct (Z.eq_dec (OpCode ins') InvalidOpCode) as [Hinv|Hop].
  { rewrite (Marshal_invalid _ _ _ Hinv) in Hloop. discriminate. }
  destruct (Marshal_ok ins' w bo Hop) as [HM _]. rewrite HM in Hloop.
  apply Forall_cons. split; [|exact (IH _ _ _ _ Hloop)].
  split; [rewrite <- (resolve_OpCode _ _ _ _ _ Hres); exact Hop|].
  intros Hpend.
  destruct (resolve_cases tbl i num ins) as [[_ H] | [[_ H] | (H1 & H2 & _)]];
    [| |destruct Hpend; contradiction];
    rewrite H in Hres; destruct (tbl !! Reference ins); eauto; discriminate.
Qed.

Lemma Instructions_Marshal_success insns tbl w w' bo :
  marshalledOffsets insns = Ok tbl ->
  Instructions_Marshal insns w bo = (w', None) ->
  Forall (encodes tbl) insns.
Proof.
  intros Htbl Hok. unfold Instructions_Marshal in Hok. rewrite Htbl in Hok.
  exact (Marshal_loop_success _ _ _ _ _ _ _ Hok).
Qed.

(** The step of the loop at an instruction that encodes, when those before
    it encode. *)
Lemma Marshal_loop_at tbl bo pre ins post w :
  Forall (encodes tbl) pre -> encodes tbl ins ->
  exists ins' before after e,
    resolve tbl (Z.of_nat (length pre)) (slots pre) ins = Ok ins'
    /\ Z.of_nat (length before) = 8 * slots pre
    /\ Marshal_loop tbl 0 0 (pre ++ ins :: post) w bo
       = (w ++ before ++ Marshal_bytes ins' bo ++ after, e).
Proof.
  intros Hpre Hins. rewrite Marshal_loop_app.
  destruct (Marshal_loop_encodes tbl bo pre 0 0 w Hpre) as [w1 Hw1].
  rewrite Hw1.
  destruct (Marshal_loop_length _ _ _ _ _ _ _ Hw1) as (before & -> & Hlen).
  rewrite !Z.add_0_l. cbn [Marshal_loop].
  destruct (resolve_encodes tbl (Z.of_nat (length pre)) (slots pre) ins Hins)
    as (ins' & Hres & Hop).
  rewrite Hres.
  destruct (Marshal_ok ins' (w ++ before) bo Hop) as [HM _]. rewrite HM.
  match goal with
  | |- context [Marshal_loop tbl ?i ?n post ?w0 bo] =>
      destruct (Marshal_loop tbl i n post w0 bo) as [w' e] eqn:Hpost
  end.
  destruct (Marshal_loop_extends _ _ _ _ _ _ _ _ Hpost) as [[after ->] _].
  exists ins', before, after, e. split; [reflexivity|]. split; [exact Hlen|].
  rewrite <- !app_assoc. reflexivity.
Qed.

(** C2: when [Instructions.Marshal] gets to a pending call, that is when
    the instructions before it encode, and the call encodes, the bytes it
    writes for the call, at 8 times the number [num] of slots before it,
    are those of the instruction with its constant set to
    [target - num - 1]; the bytes it writes for a pending branch are those
    of the instruction with its offset set to the same value narrowed to 16
    bits.  Here [target] is the entry of the referenced symbol in the slot
    table, the number of slots before the instruction that carries the
    symbol.  (Every instruction of a program that is encoded without
    error encodes: [Instructions_Marshal_success].)  For a jump with
    offset -1 that refers to [L], followed by two single slot instructions
    of which the second carries [L], the offset written for the jump is
    2 - 0 - 1 = 1. *)
Theorem Marshal_relative_addressing
        (insns pre post : list Instruction) (ins : Instruction)
        (tbl : gmap string Z) (w : Writer) (bo : ByteOrder) :
  insns = pre ++ ins :: post ->
  marshalledOffsets insns = Ok tbl ->
  Forall (encodes tbl) pre -> encodes tbl ins ->
  let num := slots pre in
  let written ins' :=
    exists before after e,
      Z.of_nat (length before) = 8 * num
      /\ Instructions_Marshal insns w bo
         = (w ++ before ++ Marshal_bytes ins' bo ++ after, e) in
  let target_slot t :=
    tbl !! Reference ins = Some t
    /\ exists j tgt,
        insns !! j = Some tgt /\ Symbol tgt = Reference ins
        /\ t = slots (take j insns) in
  (pending_call ins ->
   exists t, target_slot t /\ written (set_Constant (t - num - 1) ins))
  /\ (pending_branch ins ->
      exists t, target_slot t /\ written (set_Offset (int16 (t - num - 1)) ins))
  /\ (forall jmp nop bo',
         Class jmp = JumpClass -> JumpOp jmp <> Call ->
         isDWordLoad jmp = false -> jmp <> InvalidOpCode ->
         isDWordLoad nop = false -> nop <> InvalidOpCode ->
         Instructions_Marshal
           [mkInstruction jmp 0 0 (-1) 0 "L" "";
            mkInstruction nop 0 0 0 0 "" "";
            mkInstruction nop 0 0 0 0 "" "L"] [] bo'
         = (encode_slot bo' (mkBpf jmp 0 (2 - 0 - 1) 0)
            ++ encode_slot bo' (mkBpf nop 0 0 0)
            ++ encode_slot bo' (mkBpf nop 0 0 0), None)).
Proof.
  intros Hinsns Htbl Hpre Hins num written target_slot. subst insns.
  destruct (Marshal_loop_at tbl bo pre ins post w Hpre Hins)
    as (ins' & before & after & e & Hres & Hlen & HM).
  assert (Hwritten : written ins').
  { exists before, after, e. split; [exact Hlen|].
    unfold Instructions_Marshal. rewrite Htbl. exact HM. }
  assert (Htarget : forall t, tbl !! Reference ins = Some t -> target_slot t).
  { intros t Ht. split; [exact Ht|].
    destruct (marshalledOffsets_entry _ _ _ _ Htbl Ht) as (j & tgt & ? & ? & _ & ?).
    eauto. }
  split; [|split].
  - intros Hcall.
    destruct (resolve_cases tbl (Z.of_nat (length pre)) (slots pre) ins)
      as [[_ H] | [[[Hn _] _] | (Hn & _)]]; try contradiction.
    rewrite H in Hres. destruct (tbl !! Reference ins) as [t|] eqn:Ht;
      [|discriminate].
    injection Hres as <-. exists t. auto.
  - intros Hbranch.
    destruct (resolve_cases tbl (Z.of_nat (length pre)) (slots pre) ins)
      as [[Hc _] | [[_ H] | (_ & Hn & _)]]; try contradiction.
    { destruct Hbranch as [Hn _]. contradiction. }
    rewrite H in Hres. destruct (tbl !! Reference ins) as [t|] eqn:Ht;
      [|discriminate].
    injection Hres as <-. exists t. auto.
  - intros jmp nop bo' Hcls Hjop Hdj Hinvj Hdn Hinvn.
    unfold Instructions_Marshal, marshalledOffsets.
    cbn [marshalledOffsets_loop Symbol OpCode String.eqb Ascii.eqb].
    unfold marshalledInstructions. rewrite Hdj, Hdn.
    rewrite lookup_empty. cbn [Z.add Pos.add Pos.succ].
    cbn [Marshal_loop]. unfold resolve.
    cbn [OpCode Constant Offset Reference Z.eqb Pos.eqb andb].
    apply Z.eqb_neq in Hjop. rewrite Hjop, Hcls, Z.eqb_refl. cbn [andb].
    rewrite lookup_insert_eq, !andb_false_r.
    assert (Hj : forall off, OpCode (set_Offset off (mkInstruction jmp 0 0 (-1) 0 "L" ""))
                        <> InvalidOpCode) by (intros; exact Hinvj).
    rewrite (Marshal_slots _ _ _ (Hj _)). cbn [OpCode set_Offset]. rewrite Hdj.
    rewrite (Marshal_slots (mkInstruction nop 0 0 0 0 "" "") _ _ Hinvn).
    cbn [OpCode]. rewrite Hdn.
    rewrite (Marshal_slots (mkInstruction nop 0 0 0 0 "" "L") _ _ Hinvn).
    cbn [OpCode]. rewrite Hdn.
    cbn [app]. rewrite <- !app_assoc. reflexivity.
Qed.

(** C3: the rewrite of a call is not limited to the calls whose source
    is [PseudoCall].  The case of the [switch] that rewrites a call tests
    the jump operation and the constant and not the source register, so
    that a call with constant -1 whose source is another register has its
    constant replaced by the distance to the symbol named by its
    reference. *)
Theorem Marshal_rewrites_call_of_any_source
        (ins : Instruction) (post : list Instruction)
        (tbl : gmap string Z) (target : Z) (w : Writer) (bo : ByteOrder) :
  JumpOp (OpCode ins) = Call -> Constant ins = -1 ->
  Src ins <> PseudoCall ->
  OpCode ins <> InvalidOpCode ->
  marshalledOffsets (ins :: post) = Ok tbl ->
  tbl !! Reference ins = Some target ->
  exists after e,
    Instructions_Marshal (ins :: post) w bo
    = (w ++ Marshal_bytes (set_Constant (target - 0 - 1) ins) bo ++ after, e).
Proof.
  intros Hjop Hc _ Hop Htbl Ht.
  unfold Instructions_Marshal. rewrite Htbl. cbn [Marshal_loop].
  unfold resolve. rewrite Hjop, Hc, !Z.eqb_refl, Ht. cbn [andb].
  destruct (Marshal_ok (set_Constant (target - 0 - 1) ins) w bo Hop) as [-> _].
  destruct (Marshal_loop tbl (0 + 1)
              (0 + 8 * marshalledInstructions
                         (OpCode (set_Constant (target - 0 - 1) ins))
                   / InstructionSize) post
              (w ++ Marshal_bytes (set_Constant (target - 0 - 1) ins) bo) bo)
    as [w' e] eqn:Hloop.
  destruct (Marshal_loop_extends _ _ _ _ _ _ _ _ Hloop) as [[after ->] _].
  exists after, e. rewrite <- app_assoc. reflexivity.
Qed.

(** C6, as amended: [Instructions.RewriteMapPtr] with a non-empty
    symbol that no instruction refers to changes nothing and returns the
    unreferenced symbol error, which [IsUnreferencedSymbol] accepts.
    [Instructions.Marshal] on a sequence with a pending call or branch
    whose reference is not in the slot table returns an error that
    [IsUnreferencedSymbol] rejects; when every instruction before the
    pending one encodes, the error is the missing symbol error with the
    index of the pending instruction and its reference. *)
Theorem unreferenced_and_missing_symbols :
  (forall (insns : list Instruction) (symbol : string) (fd : Z),
      symbol <> ""%string ->
      Forall (fun ins => Reference ins <> symbol) insns ->
      Instructions_RewriteMapPtr insns symbol fd
      = (insns, Some (unreferencedSymbolError symbol))
      /\ IsUnreferencedSymbol (unreferencedSymbolError symbol) = true)
  /\ (forall (insns pre post : list Instruction) (ins : Instruction)
             (tbl : gmap string Z) (w : Writer) (bo : ByteOrder),
         insns = pre ++ ins :: post ->
         marshalledOffsets insns = Ok tbl ->
         pending_call ins \/ pending_branch ins ->
         tbl !! Reference ins = None ->
         exists w' e,
           Instructions_Marshal insns w bo = (w', Some e)
           /\ IsUnreferencedSymbol e = false
           /\ e <> unreferencedSymbolError (Reference ins)
           /\ (Forall (encodes tbl) pre ->
               e = ErrMissingSymbol (Z.of_nat (length pre)) (Reference ins))).
Proof.
  split.
  - intros insns symbol fd Hne Hall. split; [|reflexivity].
    unfold Instructions_RewriteMapPtr.
    apply String.eqb_neq in Hne. rewrite Hne.
    rewrite RewriteMapPtr_loop_unreferenced by exact Hall. reflexivity.
  - intros insns pre post ins tbl w bo -> Htbl Hpend Hnone.
    unfold Instructions_Marshal. rewrite Htbl.
    assert (Hres : forall i num,
               resolve tbl i num ins = Err (ErrMissingSymbol i (Reference ins))).
    { intros i num.
      destruct (resolve_cases tbl i num ins) as [[_ ->] | [[_ ->] | (H1 & H2 & _)]];
        rewrite ?Hnone; try reflexivity.
      destruct Hpend; contradiction. }
    rewrite Marshal_loop_app.
    destruct (Marshal_loop tbl 0 0 pre w bo) as [w1 [err|]] eqn:Hpre.
    + exists w1, err. split; [reflexivity|].
      destruct (Marshal_loop_extends _ _ _ _ _ _ _ _ Hpre) as [_ He].
      specialize (He err eq_refl). split; [exact He|].
      split; [intros ->; discriminate|].
      intros Hall.
      destruct (Marshal_loop_encodes tbl bo pre 0 0 w Hall) as [w2 Hw2].
      congruence.
    + cbn [Marshal_loop]. rewrite Hres, Z.add_0_l.
      eexists _, _. split; [reflexivity|].
      split; [reflexivity|]. split; [discriminate|]. reflexivity.
Qed.

(** ** More on one slot: from bytes to fields and back *)

Lemma byte_of_Z_inv x b : uint8 x = Z_of_byte b -> byte_of_Z x = b.
Proof.
  intros H. unfold byte_of_Z. rewrite H. unfold Z_of_byte.
  rewrite N2Z.id, Byte.of_to_N. reflexivity.
Qed.

Lemma PutUint16_Uint16 bo b0 b1 :
  PutUint16 bo (uint16 (int16 (Uint16 bo b0 b1))) = [b0; b1].
Proof. statement_only.
  pose proof (Z_of_byte_range b0) as H0. pose proof (Z_of_byte_range b1) as H1.
  destruct bo; cbn [PutUint16 Uint16]; rewrite combine16 by assumption;
    rewrite Z.shiftr_div_pow2 by lia;
    repeat f_equal; apply byte_of_Z_inv;
    unfold uint8, uint16, int16; euclid.
Qed.

Lemma PutUint32_Uint32 bo b0 b1 b2 b3 :
  PutUint32 bo (uint32 (int32 (Uint32 bo b0 b1 b2 b3))) = [b0; b1; b2; b3].
Proof. statement_only.
  pose proof (Z_of_byte_range b0) as H0. pose proof (Z_of_byte_range b1) as H1.
  pose proof (Z_of_byte_range b2) as H2. pose proof (Z_of_byte_range b3) as H3.
  destruct bo; cbn [PutUint32 Uint32]; rewrite combine32 by assumption;
    rewrite !Z.shiftr_div_pow2 by lia;
    repeat f_equal; apply byte_of_Z_inv;
    unfold uint8, uint32, int32; euclid.
Qed.

Lemma encode_decode_slot bo bs :
  length bs = 8%nat -> encode_slot bo (decode_slot bo bs) = bs.
Proof.
  intros Hlen. do 9 (destruct bs as [|? bs]; try discriminate).
  unfold decode_slot, encode_slot.
  cbn [bi_OpCode bi_Registers bi_Offset bi_Constant].
  rewrite PutUint16_Uint16, PutUint32_Uint32.
  rewrite !(byte_of_Z_inv _ _ (Z.mod_small _ _ (Z_of_byte_range _))).
  reflexivity.
Qed.

Lemma int16_range z : is_int16 (int16 z).
Proof. statement_only. unfold is_int16, int16. euclid. Qed.

Lemma decode_slot_wf bo bs :
  length bs = 8%nat -> wf_bpfInstruction (decode_slot bo bs).
Proof.
  intros Hlen. do 9 (destruct bs as [|? bs]; try discriminate).
  constructor; cbn; try apply Z_of_byte_range.
  - apply int16_range.
  - apply int32_range.
Qed.

Lemma bpfRegisters_halves r :
  is_uint8 r ->
  newBPFRegisters (bpfRegisters_Dst r) (bpfRegisters_Src r) = r
  /\ 0 <= bpfRegisters_Dst r < 16 /\ 0 <= bpfRegisters_Src r < 16.
Proof. statement_only.
  unfold is_uint8. intros Hr.
  assert (HD : bpfRegisters_Dst r = r mod 16).
  { unfold bpfRegisters_Dst. change 15 with (Z.ones 4).
    rewrite Z.land_ones by lia. reflexivity. }
  assert (HS : bpfRegisters_Src r = r / 16).
  { unfold bpfRegisters_Src. rewrite Z.shiftr_div_pow2 by lia. reflexivity. }
  rewrite HD, HS. split; [|split; euclid].
  rewrite newBPFRegisters_add by euclid. euclid.
Qed.

(** X5: packing two registers and taking them apart.  A byte of packed
    registers is put together again from its two halves, which are below
    16; and of two registers that are packed, the low four bits of each
    come back, whatever their high bits. *)
Theorem bpfRegisters_pack_unpack (r dst src : Z) :
  is_uint8 r -> is_uint8 dst -> is_uint8 src ->
  newBPFRegisters (bpfRegisters_Dst r) (bpfRegisters_Src r) = r
  /\ 0 <= bpfRegisters_Dst r < 16 /\ 0 <= bpfRegisters_Src r < 16
  /\ bpfRegisters_Dst (newBPFRegisters dst src) = dst mod 16
  /\ bpfRegisters_Src (newBPFRegisters dst src) = src mod 16
  /\ is_uint8 (newBPFRegisters dst src).
Proof. statement_only.
  unfold is_uint8. intros Hr Hd Hs.
  assert (HD : bpfRegisters_Dst r = r mod 16).
  { unfold bpfRegisters_Dst. change 15 with (Z.ones 4).
    rewrite Z.land_ones by lia. reflexivity. }
  assert (HS : bpfRegisters_Src r = r / 16).
  { unfold bpfRegisters_Src. rewrite Z.shiftr_div_pow2 by lia. reflexivity. }
  assert (Hnew : newBPFRegisters dst src = dst mod 16 + src mod 16 * 16).
  { unfold newBPFRegisters, uint8. change 15 with (Z.ones 4).
    rewrite Z.land_ones by lia. rewrite Z.shiftl_mul_pow2 by lia.
    replace ((src * 2 ^ 4) mod 2 ^ 8) with (Z.shiftl (src mod 16) 4)
      by (rewrite Z.shiftl_mul_pow2 by lia; euclid).
    rewrite Z.lor_comm, lor_shiftl_add by (try apply Z.mod_pos_bound; lia).
    euclid. }
  split; [|split; [|split; [|split; [|split]]]].
  - rewrite HD, HS, newBPFRegisters_add by euclid. euclid.
  - rewrite HD. euclid.
  - rewrite HS. euclid.
  - rewrite Hnew. unfold bpfRegisters_Dst. change 15 with (Z.ones 4).
    rewrite Z.land_ones by lia. euclid.
  - rewrite Hnew. unfold bpfRegisters_Src. rewrite Z.shiftr_div_pow2 by lia.
    euclid.
  - apply newBPFRegisters_range.
Qed.

(** ** More on [Marshal] and [Unmarshal] *)

Lemma newBPFRegisters_mod dst src :
  newBPFRegisters dst src = dst mod 16 + src mod 16 * 16.
Proof. statement_only.
  unfold newBPFRegisters, uint8. change 15 with (Z.ones 4).
  rewrite Z.land_ones by lia. rewrite Z.shiftl_mul_pow2 by lia.
  replace ((src * 2 ^ 4) mod 2 ^ 8) with (Z.shiftl (src mod 16) 4)
    by (rewrite Z.shiftl_mul_pow2 by lia; euclid).
  rewrite Z.lor_comm, lor_shiftl_add by (try apply Z.mod_pos_bound; lia).
  euclid.
Qed.

Lemma int32_mod x y : x mod 2 ^ 32 = y mod 2 ^ 32 -> int32 x = int32 y.
Proof. statement_only. unfold int32. intros H. euclid. Qed.


(** X2: [Marshal] writes the opcode, the low four bits of each register,
    the offset and the constant, of which it keeps the low 32 bits unless
    the opcode is a 64 bit load: two instructions that agree on these
    are written as the same bytes, whatever their references, their
    symbols and the high bits of their registers. *)
Theorem Marshal_ignores (ins ins' : Instruction) (w : Writer) (bo : ByteOrder) :
  OpCode ins' = OpCode ins ->
  Dst ins' mod 16 = Dst ins mod 16 ->
  Src ins' mod 16 = Src ins mod 16 ->
  Offset ins' = Offset ins ->
  (if isDWordLoad (OpCode ins) then Constant ins' = Constant ins
   else Constant ins' mod 2 ^ 32 = Constant ins mod 2 ^ 32) ->
  Marshal ins' w bo = Marshal ins w bo.
Proof.
  intros Hop Hd Hs Hoff Hc. unfold Marshal.
  rewrite Hop, Hoff, !newBPFRegisters_mod, Hd, Hs.
  destruct (isDWordLoad (OpCode ins)).
  - rewrite Hc. reflexivity.
  - rewrite (int32_mod _ _ Hc). reflexivity.
Qed.

Lemma ReadFull_Ok r r' bs :
  ReadFull 8 r = (r', Ok bs) -> r = bs ++ r' /\ length bs = 8%nat.
Proof.
  unfold ReadFull. destruct r as [|b l]; [discriminate|].
  destruct (length (b :: l) <? 8)%nat eqn:E; [discriminate|].
  intros [= <- <-]. apply Nat.ltb_ge in E. split.
  - symmetry. exact (take_drop 8 (b :: l)).
  - change (length (take 8 (b :: l)) = 8%nat). rewrite length_take. lia.
Qed.

Lemma ReadFull_partial r :
  (0 < length r < 8)%nat -> ReadFull 8 r = ([], Err ErrUnexpectedEOF).
Proof.
  intros [H0 H8]. unfold ReadFull. destruct r as [|b l]; [cbn in H0; lia|].
  apply Nat.ltb_lt in H8. rewrite H8. reflexivity.
Qed.

Lemma ReadFull_fails r :
  (length r < 8)%nat -> exists e, ReadFull 8 r = ([], Err e).
Proof.
  intros H8. unfold ReadFull. destruct r as [|b l]; [eauto|].
  apply Nat.ltb_lt in H8. rewrite H8. eauto.
Qed.

Lemma binary_Read_long bo r :
  (8 <= length r)%nat ->
  binary_Read r bo = (drop 8 r, Ok (decode_slot bo (take 8 r))).
Proof.
  intros H8. rewrite <- (take_drop 8 r) at 1.
  apply binary_Read_app. rewrite length_take. lia.
Qed.

Lemma decode_slot_Constant bo bs :
  length bs = 8%nat ->
  int64 (bi_Constant (decode_slot bo bs)) = bi_Constant (decode_slot bo bs).
Proof.
  intros Hlen. apply int64_int32. apply (decode_slot_wf bo bs Hlen).
Qed.

(** X3: the failures of [Unmarshal] before the second slot.  On a
    stream of 1 to 7 bytes it fails with [io.ErrUnexpectedEOF] and leaves
    its receiver as it was.  On a stream of at least 8 bytes whose first
    slot is not a 64 bit load it returns the fields of that slot and
    reports 8 bytes, leaving the rest of the stream.  On a stream of 8 to
    15 bytes whose first slot is a 64 bit load it fails with the missing
    second half error, after it has written the fields of the first slot
    to its receiver and consumed the stream. *)
Theorem Unmarshal_outcome (ins : Instruction) (r : Reader) (bo : ByteOrder) :
  let bi := decode_slot bo (take 8 r) in
  let first :=
    mkInstruction (bi_OpCode bi) (bpfRegisters_Dst (bi_Registers bi))
                  (bpfRegisters_Src (bi_Registers bi)) (bi_Offset bi)
                  (bi_Constant bi) (Reference ins) (Symbol ins) in
  ((0 < length r < 8)%nat ->
   Unmarshal ins r bo = (ins, [], Err ErrUnexpectedEOF))
  /\ ((8 <= length r)%nat -> isDWordLoad (bi_OpCode bi) = false ->
      Unmarshal ins r bo = (first, drop 8 r, Ok 8))
  /\ ((8 <= length r < 16)%nat -> isDWordLoad (bi_OpCode bi) = true ->
      Unmarshal ins r bo = (first, [], Err ErrMissingSecondHalf)).
Proof.
  intros bi first.
  assert (Hc : (8 <= length r)%nat -> int64 (bi_Constant bi) = bi_Constant bi).
  { intros H8. apply decode_slot_Constant. rewrite length_take. lia. }
  split; [|split].
  - intros Hlen. unfold Unmarshal, binary_Read.
    rewrite (ReadFull_partial r Hlen). reflexivity.
  - intros H8 Hdw. unfold Unmarshal. rewrite binary_Read_long by exact H8.
    fold bi. rewrite Hdw, (Hc H8). reflexivity.
  - intros [H8 H16] Hdw. unfold Unmarshal.
    rewrite binary_Read_long by exact H8. fold bi. rewrite Hdw, (Hc H8).
    cbn [negb]. unfold binary_Read.
    destruct (ReadFull_fails (drop 8 r)) as [e ->]; [|reflexivity].
    rewrite length_drop. lia.
Qed.

(** What a successful [Unmarshal] has read. *)
Lemma Unmarshal_Ok ins r bo ins' r' n :
  Unmarshal ins r bo = (ins', r', Ok n) ->
  exists bs1,
    length bs1 = 8%nat
    /\ let bi := decode_slot bo bs1 in
       let first :=
         mkInstruction (bi_OpCode bi) (bpfRegisters_Dst (bi_Registers bi))
                       (bpfRegisters_Src (bi_Registers bi)) (bi_Offset bi)
                       (bi_Constant bi) (Reference ins) (Symbol ins) in
       (isDWordLoad (bi_OpCode bi) = false
        /\ r = bs1 ++ r' /\ n = 8 /\ ins' = first)
       \/ (isDWordLoad (bi_OpCode bi) = true
           /\ exists bs2,
               length bs2 = 8%nat /\ r = bs1 ++ bs2 ++ r' /\ n = 16
               /\ decode_slot bo bs2
                  = mkBpf 0 0 0 (bi_Constant (decode_slot bo bs2))
               /\ ins' = set_Constant
                           (int64 (uint32 (bi_Constant bi)
                                   + uint32 (bi_Constant (decode_slot bo bs2))
                                     * 2 ^ 32))
                           first).
Proof.
  unfold Unmarshal, binary_Read.
  destruct (ReadFull 8 r) as [r1 [bs1|e]] eqn:E1; [|discriminate].
  apply ReadFull_Ok in E1 as [-> Hlen1].
  rewrite (decode_slot_Constant bo bs1 Hlen1).
  intros HU. exists bs1. split; [exact Hlen1|]. cbn zeta.
  destruct (isDWordLoad (bi_OpCode (decode_slot bo bs1))) eqn:Hdw;
    cbn [negb] in HU.
  - destruct (ReadFull 8 r1) as [r2 [bs2|e]] eqn:E2; [|discriminate].
    apply ReadFull_Ok in E2 as [-> Hlen2].
    rewrite combine_halves in HU.
    destruct (decode_slot bo bs2) as [op2 regs2 off2 c2] eqn:Hbi2.
    cbn [bi_OpCode bi_Registers bi_Offset bi_Constant] in HU |- *.
    destruct (Z.eqb_spec op2 0) as [->|?], (Z.eqb_spec off2 0) as [->|?],
      (Z.eqb_spec regs2 0) as [->|?]; cbn [negb orb] in HU; try discriminate.
    injection HU as <- <- <-. right. split; [reflexivity|].
    exists bs2. rewrite Hbi2. repeat split; try assumption; reflexivity.
  - injection HU as <- <- <-. left. auto.
Qed.

(** X4: what [Unmarshal] returns.  After a success the receiver holds
    values of the field types, with registers below 16 and, unless the
    opcode is a 64 bit load, a constant of 32 bits; its reference and
    symbol are those it had; the byte count is 8 times the number of
    slots of the opcode, and exactly that many bytes have been taken from
    the front of the stream. *)
Theorem Unmarshal_result (ins ins' : Instruction) (r r' : Reader)
        (bo : ByteOrder) (n : Z) :
  Unmarshal ins r bo = (ins', r', Ok n) ->
  wf_Instruction ins'
  /\ Dst ins' < 16 /\ Src ins' < 16
  /\ (isDWordLoad (OpCode ins') = false -> is_int32 (Constant ins'))
  /\ Reference ins' = Reference ins /\ Symbol ins' = Symbol ins
  /\ n = 8 * marshalledInstructions (OpCode ins')
  /\ r = take (Z.to_nat n) r ++ r'
  /\ Z.of_nat (length r) = n + Z.of_nat (length r').
Proof.
  intros HU. destruct (Unmarshal_Ok _ _ _ _ _ _ HU) as (bs1 & Hlen1 & Hcases).
  cbn zeta in Hcases.
  destruct (decode_slot_wf bo bs1 Hlen1) as [Hop Hregs Hoff Hc].
  destruct (bpfRegisters_halves _ Hregs) as (_ & HD & HS).
  unfold marshalledInstructions.
  destruct Hcases as [(Hdw & -> & -> & ->)
                     | (Hdw & bs2 & Hlen2 & -> & -> & _ & ->)];
    cbn [OpCode Dst Src Offset Constant Reference Symbol set_Constant];
    rewrite Hdw.
  - split.
    { constructor; cbn; try assumption; unfold is_uint8, is_int64, is_int32 in *; lia. }
    repeat split; try lia; try (unfold is_int32 in Hc; lia).
    + rewrite take_app_length' by (rewrite Hlen1; reflexivity). reflexivity.
    + rewrite length_app. lia.
  - split.
    { constructor; cbn; try assumption; try (unfold is_uint8; lia).
      unfold is_int64, int64. clear. euclid. }
    repeat split; try lia; try discriminate.
    + rewrite app_assoc.
      rewrite take_app_length' by (rewrite length_app, Hlen1, Hlen2; reflexivity).
      reflexivity.
    + rewrite !length_app. lia.
Qed.

(** X6: encoding what was decoded gives the bytes back.  When
    [Unmarshal] succeeds and the opcode it read is not the invalid one,
    [Marshal] of the instruction it returned writes exactly the bytes
    [Unmarshal] took from the stream, and reports the same count. *)
Theorem Marshal_Unmarshal (ins ins' : Instruction) (r r' : Reader)
        (w : Writer) (bo : ByteOrder) (n : Z) :
  Unmarshal ins r bo = (ins', r', Ok n) ->
  OpCode ins' <> InvalidOpCode ->
  exists bs, Marshal ins' w bo = (w ++ bs, Ok n) /\ r = bs ++ r'.
Proof. statement_only.
  intros HU Hop. destruct (Unmarshal_Ok _ _ _ _ _ _ HU) as (bs1 & Hlen1 & Hcases).
  cbn zeta in Hcases. rewrite (Marshal_slots ins' w bo Hop).
  destruct (decode_slot_wf bo bs1 Hlen1) as [_ Hregs _ Hc].
  destruct (bpfRegisters_halves _ Hregs) as (Hpack & _).
  pose proof (encode_decode_slot bo bs1 Hlen1) as Hbs1.
  destruct (decode_slot bo bs1) as [op regs off c] eqn:Hbi.
  cbn [bi_OpCode bi_Registers bi_Offset bi_Constant] in *.
  destruct Hcases as [(Hdw & -> & -> & ->)
                     | (Hdw & bs2 & Hlen2 & -> & -> & Hbi2 & ->)];
    cbn [OpCode Dst Src Offset Constant set_Constant]; rewrite Hdw, Hpack.
  - exists bs1. split; [|reflexivity].
    replace (int32 c) with c by (unfold is_int32, int32 in *; euclid).
    rewrite Hbs1. reflexivity.
  - exists (bs1 ++ bs2). split; [|rewrite <- app_assoc; reflexivity].
    pose proof (encode_decode_slot bo bs2 Hlen2) as Hbs2.
    destruct (decode_slot_wf bo bs2 Hlen2) as [_ _ _ Hc2].
    rewrite Hbi2 in Hbs2. cbn [bi_Constant] in *.
    set (c2 := bi_Constant (decode_slot bo bs2)) in *.
    replace (int32 (uint32 (int64 (uint32 c + uint32 c2 * 2 ^ 32)))) with c
      by (unfold is_int32, int32, uint32, int64 in *; clear - Hc; euclid).
    replace (int32 (Z.shiftr (int64 (uint32 c + uint32 c2 * 2 ^ 32)) 32)) with c2
      by (rewrite Z.shiftr_div_pow2 by lia;
          unfold is_int32, int32, uint32, int64 in *; clear - Hc2; euclid).
    rewrite Hbs1, Hbs2. reflexivity.
Qed.

(** ** More on the packed map constant *)

Lemma mapPtr_range ins : 0 <= mapPtr ins < 2 ^ 32.
Proof. rewrite mapPtr_mod. apply Z.mod_pos_bound. lia. Qed.

Lemma mapOffset_range ins : 0 <= mapOffset ins < 2 ^ 32.
Proof. rewrite mapOffset_div. apply Z.mod_pos_bound. lia. Qed.

(** X7: [Instruction.RewriteMapPtr] fails exactly when the instruction is
    not a 64 bit load, with the error that names the opcode, or when it
    is one and its source is neither [PseudoMapFD] nor [PseudoMapValue];
    a failure leaves the instruction as it was.  A success changes the
    constant only: [mapPtr] becomes the descriptor truncated to 32 bits
    and [mapOffset] stays. *)
Theorem RewriteMapPtr_outcome (ins : Instruction) (fd : Z) :
  (isDWordLoad (OpCode ins) = false ->
   RewriteMapPtr ins fd = (ins, Some (ErrNot64BitLoad (OpCode ins))))
  /\ (isDWordLoad (OpCode ins) = true ->
      Src ins <> PseudoMapFD -> Src ins <> PseudoMapValue ->
      RewriteMapPtr ins fd = (ins, Some ErrNotMapLoad))
  /\ (isDWordLoad (OpCode ins) = true ->
      Src ins = PseudoMapFD \/ Src ins = PseudoMapValue ->
      exists ins',
        RewriteMapPtr ins fd = (ins', None)
        /\ ins' = set_Constant (Constant ins') ins
        /\ is_int64 (Constant ins')
        /\ mapPtr ins' = uint32 fd /\ mapOffset ins' = mapOffset ins).
Proof.
  split; [|split].
  - intros Hdw. unfold RewriteMapPtr. rewrite Hdw. reflexivity.
  - intros Hdw H1 H2. unfold RewriteMapPtr. rewrite Hdw.
    apply Z.eqb_neq in H1, H2. rewrite H1, H2. reflexivity.
  - intros Hdw Hsrc. rewrite (RewriteMapPtr_ok ins fd Hdw Hsrc).
    eexists. split; [reflexivity|]. split; [reflexivity|].
    assert (Hfd : 0 <= uint32 fd < 2 ^ 32)
      by (unfold uint32; apply Z.mod_pos_bound; lia).
    destruct (unpack_halves
                (set_Constant (int64 (uint32 fd + mapOffset ins * 2 ^ 32)) ins)
                (uint32 fd) (mapOffset ins) Hfd (mapOffset_range ins) eq_refl)
      as [H1 H2].
    split; [|auto]. cbn [Constant set_Constant].
    unfold is_int64, int64. clear. euclid.
Qed.

(** X8: the two accessors take the constant apart without loss: a
    constant of 64 bits is [mapPtr] in its low half and [mapOffset] in
    its high half, both unsigned 32 bit values. *)
Theorem map_constant_halves (ins : Instruction) :
  is_int64 (Constant ins) ->
  Constant ins = int64 (Z.lor (Z.shiftl (mapOffset ins) 32) (mapPtr ins))
  /\ is_uint32 (mapPtr ins) /\ is_uint32 (mapOffset ins).
Proof.
  intros HC. split; [|split; [apply mapPtr_range | apply mapOffset_range]].
  rewrite Z.lor_comm, lor_shiftl_add by (try apply mapPtr_range; lia).
  rewrite mapPtr_mod, mapOffset_div. unfold is_int64, int64 in *.
  clear - HC. euclid.
Qed.

(** X9: the last rewrite wins.  A second [RewriteMapPtr] gives what it
    would have given alone, and so does a second [RewriteMapOffset];
    rewriting an instruction with the handle and the offset it already
    has changes nothing. *)
Theorem map_rewrites_overwrite (ins : Instruction) (fd1 fd2 o1 o2 : Z) :
  is_uint32 o1 -> is_uint32 o2 -> is_int64 (Constant ins) ->
  isDWordLoad (OpCode ins) = true ->
  Src ins = PseudoMapValue ->
  RewriteMapPtr (fst (RewriteMapPtr ins fd1)) fd2 = RewriteMapPtr ins fd2
  /\ RewriteMapOffset (fst (RewriteMapOffset ins o1)) o2 = RewriteMapOffset ins o2
  /\ RewriteMapPtr ins (mapPtr ins) = (ins, None)
  /\ RewriteMapOffset ins (mapOffset ins) = (ins, None).
Proof.
  intros Ho1 Ho2 HC Hdw Hsrc.
  assert (Hu : forall x, 0 <= x < 2 ^ 32 -> uint32 x = x)
    by (intros x Hx; apply Z.mod_small; exact Hx).
  assert (Hid : set_Constant (int64 (mapPtr ins + mapOffset ins * 2 ^ 32)) ins = ins).
  { destruct ins as [op d s off c ref sym]. unfold set_Constant. cbn. f_equal.
    rewrite mapPtr_mod, mapOffset_div. cbn [Constant] in *.
    unfold is_int64, int64 in *. clear - HC. euclid. }
  split; [|split; [|split]].
  - rewrite (RewriteMapPtr_ok ins fd1 Hdw (or_intror Hsrc)). cbn [fst].
    set (a := set_Constant _ ins).
    rewrite (RewriteMapPtr_ok a fd2 Hdw (or_intror Hsrc)).
    rewrite (RewriteMapPtr_ok ins fd2 Hdw (or_intror Hsrc)).
    assert (Hfd : 0 <= uint32 fd1 < 2 ^ 32)
      by (unfold uint32; apply Z.mod_pos_bound; lia).
    destruct (unpack_halves a (uint32 fd1) (mapOffset ins) Hfd
                            (mapOffset_range ins) eq_refl) as [_ ->].
    reflexivity.
  - rewrite (RewriteMapOffset_ok ins o1 Ho1 Hdw Hsrc). cbn [fst].
    set (a := set_Constant _ ins).
    rewrite (RewriteMapOffset_ok a o2 Ho2 Hdw Hsrc).
    rewrite (RewriteMapOffset_ok ins o2 Ho2 Hdw Hsrc).
    destruct (unpack_halves a (mapPtr ins) o1 (mapPtr_range ins) Ho1 eq_refl)
      as [-> _].
    reflexivity.
  - rewrite (RewriteMapPtr_ok ins _ Hdw (or_intror Hsrc)).
    rewrite (Hu _ (mapPtr_range ins)), Hid. reflexivity.
  - rewrite (RewriteMapOffset_ok ins _ (mapOffset_range ins) Hdw Hsrc).
    rewrite Hid. reflexivity.
Qed.

(** X10: where the two halves go on the wire.  [Marshal] writes a 64 bit
    load as a first slot whose constant is [mapPtr], the handle, and a
    second slot that is zero but for its constant, [mapOffset], each as a
    signed 32 bit value. *)
Theorem Marshal_map_load (ins : Instruction) (w : Writer) (bo : ByteOrder) :
  OpCode ins <> InvalidOpCode ->
  isDWordLoad (OpCode ins) = true ->
  Marshal ins w bo
  = (w ++ encode_slot bo (mkBpf (OpCode ins)
                                (newBPFRegisters (Dst ins) (Src ins))
                                (Offset ins) (int32 (mapPtr ins)))
       ++ encode_slot bo (mkBpf 0 0 0 (int32 (mapOffset ins))),
     Ok 16).
Proof.
  intros Hop Hdw. rewrite (Marshal_slots ins w bo Hop), Hdw.
  rewrite (int32_mod (uint32 (Constant ins)) (mapPtr ins))
    by (rewrite mapPtr_mod; unfold uint32; clear; euclid).
  rewrite (int32_mod (Z.shiftr (Constant ins) 32) (mapOffset ins))
    by (rewrite mapOffset_div, Z.shiftr_div_pow2 by lia; clear; euclid).
  reflexivity.
Qed.

(** ** More on [Instructions.RewriteMapPtr] *)

Lemma is_map_load_dec ins : is_map_load ins \/ ~ is_map_load ins.
Proof. statement_only.
  unfold is_map_load. destruct (isDWordLoad (OpCode ins)).
  - destruct (Z.eq_dec (Src ins) PseudoMapFD), (Z.eq_dec (Src ins) PseudoMapValue);
      tauto.
  - right. intros [H _]. discriminate.
Qed.

Lemma RewriteMapPtr_rejects ins fd :
  ~ is_map_load ins ->
  exists e,
    RewriteMapPtr ins fd = (ins, Some e)
    /\ (e = ErrNot64BitLoad (OpCode ins) \/ e = ErrNotMapLoad).
Proof. statement_only.
  intros Hn. unfold RewriteMapPtr, is_map_load in *.
  destruct (isDWordLoad (OpCode ins)); cbn [negb]; [|eauto].
  destruct (Z.eqb_spec (Src ins) PseudoMapFD), (Z.eqb_spec (Src ins) PseudoMapValue);
    cbn [negb andb]; eauto; tauto.
Qed.

Lemma RewriteMapPtr_accepts ins fd :
  is_map_load ins -> RewriteMapPtr ins fd = (fst (RewriteMapPtr ins fd), None).
Proof. intros [Hdw Hsrc]. rewrite (RewriteMapPtr_ok ins fd Hdw Hsrc). reflexivity. Qed.

Lemma RewriteMapPtr_accepted ins fd :
  is_map_load ins ->
  exists ins',
    RewriteMapPtr ins fd = (ins', None)
    /\ mapPtr ins' = uint32 fd /\ mapOffset ins' = mapOffset ins.
Proof.
  intros [Hdw Hsrc]. rewrite (RewriteMapPtr_ok ins fd Hdw Hsrc).
  eexists. split; [reflexivity|].
  assert (Hfd : 0 <= uint32 fd < 2 ^ 32)
    by (unfold uint32; apply Z.mod_pos_bound; lia).
  exact (unpack_halves
           (set_Constant (int64 (uint32 fd + mapOffset ins * 2 ^ 32)) ins)
           (uint32 fd) (mapOffset ins) Hfd (mapOffset_range ins) eq_refl).
Qed.

Lemma rewritten_ref symbol fd ins :
  Reference ins = symbol -> rewritten symbol fd ins = fst (RewriteMapPtr ins fd).
Proof.
  intros H. unfold rewritten. apply String.eqb_eq in H. rewrite H. reflexivity.
Qed.

Lemma rewritten_other symbol fd ins :
  Reference ins <> symbol -> rewritten symbol fd ins = ins.
Proof.
  intros H. unfold rewritten. apply String.eqb_neq in H. rewrite H. reflexivity.
Qed.

(** The loop either gets past every instruction, or stops at the first
    one that refers to the symbol and is not a load from a map. *)
Lemma RewriteMapPtr_loop_cases symbol fd insns : forall found,
  (Forall (fun ins => Reference ins = symbol -> is_map_load ins) insns
   /\ RewriteMapPtr_loop symbol fd found insns
      = (rewritten symbol fd <$> insns,
         Ok (found || existsb (fun ins => String.eqb (Reference ins) symbol) insns)))
  \/ (exists pre ins post e,
         insns = pre ++ ins :: post
         /\ Forall (fun ins => Reference ins = symbol -> is_map_load ins) pre
         /\ Reference ins = symbol /\ ~ is_map_load ins
         /\ RewriteMapPtr ins fd = (ins, Some e)
         /\ RewriteMapPtr_loop symbol fd found insns
            = ((rewritten symbol fd <$> pre) ++ ins :: post, Err e)).
Proof.
  induction insns as [|ins rest IH]; intros found.
  { left. split; [apply Forall_nil_2|]. cbn. rewrite orb_false_r. reflexivity. }
  cbn [RewriteMapPtr_loop existsb fmap list_fmap].
  destruct (String.eqb_spec (Reference ins) symbol) as [Href|Href]; cbn [negb].
  - destruct (is_map_load_dec ins) as [Hml|Hml].
    + rewrite (RewriteMapPtr_accepts ins fd Hml).
      destruct (IH true) as [[Hall ->] | (pre & x & post & e & -> & Hpre & Hx & Hn & He & ->)].
      * left. split; [apply Forall_cons; auto|].
        rewrite (rewritten_ref symbol fd ins Href), orb_true_r. reflexivity.
      * right. exists (ins :: pre), x, post, e.
        split; [reflexivity|]. split; [apply Forall_cons; auto|].
        repeat (split; [assumption|]).
        cbn [fmap list_fmap app].
        rewrite (rewritten_ref symbol fd ins Href). reflexivity.
    + destruct (RewriteMapPtr_rejects ins fd Hml) as (e & He & _).
      right. exists [], ins, rest, e. rewrite He.
      repeat split; try assumption. apply Forall_nil_2.
  - destruct (IH found) as [[Hall ->] | (pre & x & post & e & -> & Hpre & Hx & Hn & He & ->)].
    + left. split; [apply Forall_cons; split; [contradiction | exact Hall]|].
      rewrite (rewritten_other symbol fd ins Href). reflexivity.
    + right. exists (ins :: pre), x, post, e.
      split; [reflexivity|].
      split; [apply Forall_cons; split; [contradiction | exact Hpre]|].
      repeat (split; [assumption|]).
      cbn [fmap list_fmap app].
      rewrite (rewritten_other symbol fd ins Href). reflexivity.
Qed.

Lemma existsb_Reference symbol insns :
  existsb (fun ins => String.eqb (Reference ins) symbol) insns = true
  <-> exists ins, ins ∈ insns /\ Reference ins = symbol.
Proof.
  rewrite existsb_exists. split; intros (ins & Hin & H); exists ins.
  - apply list_elem_of_In in Hin. apply String.eqb_eq in H. auto.
  - apply list_elem_of_In in Hin. apply String.eqb_eq in H. auto.
Qed.

Lemma Forall_app_head {A} (P : A -> Prop) pre x post :
  Forall P (pre ++ x :: post) -> P x.
Proof. intros H. apply Forall_app in H as [_ H]. apply Forall_cons in H as [H _]. exact H. Qed.

(** X11: [Instructions.RewriteMapPtr] succeeds exactly when the symbol is
    not empty, some instruction refers to it and every instruction that
    refers to it is a 64 bit load from one of the two map registers.  It
    then rewrites each of these, which afterwards has the descriptor as
    [mapPtr] and the [mapOffset] it had, and leaves every other
    instruction as it was. *)
Theorem Instructions_RewriteMapPtr_success
        (insns : list Instruction) (symbol : string) (fd : Z) :
  (snd (Instructions_RewriteMapPtr insns symbol fd) = None
   <-> symbol <> ""%string
       /\ (exists ins, ins ∈ insns /\ Reference ins = symbol)
       /\ Forall (fun ins => Reference ins = symbol -> is_map_load ins) insns)
  /\ (snd (Instructions_RewriteMapPtr insns symbol fd) = None ->
      length (fst (Instructions_RewriteMapPtr insns symbol fd)) = length insns
      /\ forall i ins,
          insns !! i = Some ins ->
          exists ins',
            fst (Instructions_RewriteMapPtr insns symbol fd) !! i = Some ins'
            /\ (Reference ins <> symbol -> ins' = ins)
            /\ (Reference ins = symbol ->
                RewriteMapPtr ins fd = (ins', None)
                /\ mapPtr ins' = uint32 fd
                /\ mapOffset ins' = mapOffset ins)).
Proof. statement_only.
  assert (Hiff : snd (Instructions_RewriteMapPtr insns symbol fd) = None
                 <-> symbol <> ""%string
                     /\ (exists ins, ins ∈ insns /\ Reference ins = symbol)
                     /\ Forall (fun ins => Reference ins = symbol -> is_map_load ins)
                               insns).
  { unfold Instructions_RewriteMapPtr.
    destruct (String.eqb_spec symbol "") as [->|Hne]; cbn [snd].
    { split; [discriminate | tauto]. }
    destruct (RewriteMapPtr_loop_cases symbol fd insns false)
      as [[Hall ->] | (pre & x & post & e & -> & Hpre & Hx & Hn & He & ->)].
    - cbn [orb].
      destruct (existsb (fun ins => String.eqb (Reference ins) symbol) insns) eqn:E;
        cbn [negb snd].
      + apply existsb_Reference in E. tauto.
      + split; [discriminate|]. intros (_ & Hex & _).
        apply existsb_Reference in Hex. congruence.
    - cbn [snd]. split; [discriminate|]. intros (_ & _ & Hall).
      exfalso. apply Hn. exact (Forall_app_head _ _ _ _ Hall Hx). }
  split; [exact Hiff|].
  intros Hok. pose proof (proj1 Hiff Hok) as (Hne & Hex & Hall).
  assert (Hfst : fst (Instructions_RewriteMapPtr insns symbol fd)
                 = rewritten symbol fd <$> insns).
  { unfold Instructions_RewriteMapPtr in *.
    apply String.eqb_neq in Hne. rewrite Hne in *.
    destruct (RewriteMapPtr_loop_cases symbol fd insns false)
      as [[_ H] | (pre & x & post & e & -> & _ & _ & _ & _ & H)];
      rewrite H in *.
    - destruct (negb _); reflexivity.
    - discriminate. }
  rewrite Hfst. split; [apply length_fmap|].
  intros i ins Hi. exists (rewritten symbol fd ins).
  split; [rewrite list_lookup_fmap, Hi; reflexivity|].
  split; [apply rewritten_other|].
  intros Href. rewrite (rewritten_ref symbol fd ins Href).
  assert (Hml : is_map_load ins).
  { eapply Forall_forall in Hall; [exact (Hall Href)|].
    apply list_elem_of_lookup. eauto. }
  destruct (RewriteMapPtr_accepted ins fd Hml) as (ins' & -> & Hp & Ho).
  auto.
Qed.

(** X12: [Instructions.RewriteMapPtr] stops at the first instruction that
    refers to the symbol and is not a load from a map, with the error of
    [Instruction.RewriteMapPtr] on it, which is not the unreferenced
    symbol error; the instructions before it stay rewritten and those
    from it on are untouched. *)
Theorem Instructions_RewriteMapPtr_stops
        (insns pre post : list Instruction) (ins : Instruction)
        (symbol : string) (fd : Z) :
  symbol <> ""%string ->
  insns = pre ++ ins :: post ->
  Forall (fun ins => Reference ins = symbol -> is_map_load ins) pre ->
  Reference ins = symbol -> ~ is_map_load ins ->
  exists e,
    RewriteMapPtr ins fd = (ins, Some e)
    /\ (e = ErrNot64BitLoad (OpCode ins) \/ e = ErrNotMapLoad)
    /\ IsUnreferencedSymbol e = false
    /\ Instructions_RewriteMapPtr insns symbol fd
       = ((rewritten symbol fd <$> pre) ++ ins :: post, Some e)
    /\ forall i x, pre !! i = Some x ->
         Reference x = symbol -> mapPtr (rewritten symbol fd x) = uint32 fd.
Proof.
  intros Hne -> Hpre Href Hn.
  destruct (RewriteMapPtr_rejects ins fd Hn) as (e & He & Hkind).
  exists e. split; [exact He|]. split; [exact Hkind|].
  split; [destruct Hkind as [-> | ->]; reflexivity|].
  split.
  - unfold Instructions_RewriteMapPtr.
    apply String.eqb_neq in Hne. rewrite Hne.
    destruct (RewriteMapPtr_loop_cases symbol fd (pre ++ ins :: post) false)
      as [[Hall _] | (pre' & x & post' & e' & Heq & Hpre' & Hx & Hn' & He' & ->)].
    { exfalso. apply Hn. exact (Forall_app_head _ _ _ _ Hall Href). }
    (* the first instruction that is refused is [ins] *)
    assert (Hsame : pre' = pre /\ x = ins /\ post' = post).
    { clear - Heq Hpre Hpre' Href Hn Hx Hn'.
      revert pre' Heq Hpre'. induction pre as [|a pre IH]; intros pre' Heq Hpre'.
      - destruct pre' as [|b pre']; cbn in Heq.
        + injection Heq as -> ->. auto.
        + injection Heq as -> _. apply Forall_cons in Hpre' as [Hb _].
          exfalso. apply Hn. exact (Hb Href).
      - apply Forall_cons in Hpre as [Ha Hpre].
        destruct pre' as [|b pre']; cbn in Heq.
        + injection Heq as -> _. exfalso. apply Hn'. exact (Ha Hx).
        + injection Heq as -> Heq. apply Forall_cons in Hpre' as [_ Hpre'].
          destruct (IH Hpre pre' Heq Hpre') as (-> & -> & ->). auto. }
    destruct Hsame as (-> & -> & ->).
    rewrite He in He'. injection He' as ->. reflexivity.
  - intros i x Hi Hx. rewrite (rewritten_ref symbol fd x Hx).
    assert (Hml : is_map_load x).
    { eapply Forall_forall in Hpre; [exact (Hpre Hx)|].
      apply list_elem_of_lookup. eauto. }
    destruct (RewriteMapPtr_accepted x fd Hml) as (x' & -> & Hp & _).
    exact Hp.
Qed.

(** ** [Instructions.ReferenceOffsets] *)

Lemma positions_of_spec s insns : forall i k,
  k ∈ positions_of s i insns
  <-> exists j ins,
        k = i + Z.of_nat j /\ insns !! j = Some ins /\ Reference ins = s.
Proof.
  induction insns as [|a rest IH]; intros i k; cbn [positions_of].
  { split; [intros H; inversion H | intros (j & ins & _ & H & _); discriminate]. }
  assert (Hrest : k ∈ positions_of s (i + 1) rest
                  <-> exists j ins, k = i + Z.of_nat (S j)
                                    /\ (a :: rest) !! S j = Some ins
                                    /\ Reference ins = s).
  { rewrite IH. split; intros (j & ins & -> & Hj & Hr); exists j, ins;
      (split; [lia | split; assumption]). }
  destruct (String.eqb_spec (Reference a) s) as [Ha|Ha].
  - rewrite elem_of_cons, Hrest. split.
    + intros [-> | (j & ins & H)]; [|eauto].
      exists 0%nat, a. split; [lia | split; [reflexivity | exact Ha]].
    + intros ([|j] & ins & Hk & Hj & Hr); [left; lia | right; eauto].
  - rewrite Hrest. split.
    + intros (j & ins & H). eauto.
    + intros ([|j] & ins & Hk & Hj & Hr); [|eauto].
      cbn in Hj. injection Hj as ->. contradiction.
Qed.

Lemma positions_of_sorted s insns : forall i,
  StronglySorted Z.lt (positions_of s i insns)
  /\ Forall (fun k => i <= k) (positions_of s i insns).
Proof.
  induction insns as [|a rest IH]; intros i; cbn [positions_of].
  { split; constructor. }
  destruct (IH (i + 1)) as [Hs Hb].
  assert (Hb' : Forall (fun k => i < k) (positions_of s (i + 1) rest))
    by (eapply Forall_impl; [exact Hb | intros k Hk; cbn in Hk; lia]).
  destruct (String.eqb (Reference a) s).
  - split; [constructor; assumption|].
    constructor; [lia|]. eapply Forall_impl; [exact Hb'|]. intros k Hk. cbn in Hk. lia.
  - split; [exact Hs|].
    eapply Forall_impl; [exact Hb'|]. intros k Hk. cbn in Hk. lia.
Qed.

(** The table of the loop, entry by entry. *)
Lemma ReferenceOffsets_loop_lookup s insns : forall m i,
  ReferenceOffsets_loop m i insns !! s
  = if String.eqb s "" then m !! s
    else match positions_of s i insns with
         | [] => m !! s
         | l => Some (default [] (m !! s) ++ l)
         end.
Proof.
  induction insns as [|a rest IH]; intros m i;
    cbn [ReferenceOffsets_loop positions_of].
  { destruct (String.eqb s ""); reflexivity. }
  destruct (String.eqb_spec (Reference a) "") as [Ha|Ha].
  - rewrite IH. destruct (String.eqb_spec s "") as [Hs|Hs]; [reflexivity|].
    replace (String.eqb (Reference a) s) with false; [reflexivity|].
    symmetry. apply String.eqb_neq. congruence.
  - rewrite IH. destruct (String.eqb_spec s "") as [Hs|Hs].
    + apply lookup_insert_ne. congruence.
    + destruct (String.eqb_spec (Reference a) s) as [Has|Has].
      * subst s. rewrite lookup_insert_eq.
        destruct (positions_of (Reference a) (i + 1) rest); [reflexivity|].
        unfold default, from_option, id. rewrite <- app_assoc. reflexivity.
      * rewrite lookup_insert_ne by exact Has. reflexivity.
Qed.

Lemma positions_of_nil s insns i :
  positions_of s i insns = []
  <-> forall ins, ins ∈ insns -> Reference ins <> s.
Proof.
  split.
  - intros Hnil ins Hin Hr. apply list_elem_of_lookup in Hin as [j Hj].
    assert (Hk : (i + Z.of_nat j) ∈ positions_of s i insns)
      by (apply positions_of_spec; eauto).
    rewrite Hnil in Hk. inversion Hk.
  - intros Hall. destruct (positions_of s i insns) as [|k l] eqn:E; [reflexivity|].
    assert (Hk : k ∈ positions_of s i insns) by (rewrite E; apply list_elem_of_here).
    apply positions_of_spec in Hk as (j & ins & _ & Hj & Hr).
    exfalso. apply (Hall ins); [|exact Hr]. apply list_elem_of_lookup. eauto.
Qed.

Lemma ReferenceOffsets_None insns s :
  ReferenceOffsets insns !! s = None
  <-> s = ""%string \/ forall ins, ins ∈ insns -> Reference ins <> s.
Proof. statement_only.
  unfold ReferenceOffsets. rewrite ReferenceOffsets_loop_lookup, lookup_empty.
  destruct (String.eqb_spec s "") as [Hs|Hs]; [tauto|].
  pose proof (positions_of_nil s insns 0) as Hnil.
  destruct (positions_of s 0 insns) as [|k0 l0].
  - split; [intros _; right; apply Hnil; reflexivity | reflexivity].
  - split; [discriminate|]. intros [H | H]; [contradiction|].
    apply Hnil in H. discriminate.
Qed.

(** X13: [ReferenceOffsets] has an entry for a name exactly when the name
    is not empty and some instruction refers to it; the entry is the list
    of the indices of all the instructions that refer to the name, in
    increasing order. *)
Theorem ReferenceOffsets_lookup (insns : list Instruction) (s : string) :
  (ReferenceOffsets insns !! s = None
   <-> s = ""%string \/ forall ins, ins ∈ insns -> Reference ins <> s)
  /\ forall l,
      ReferenceOffsets insns !! s = Some l ->
      l <> [] /\ StronglySorted Z.lt l
      /\ forall k,
          k ∈ l <-> exists j ins,
                      k = Z.of_nat j /\ insns !! j = Some ins
                      /\ Reference ins = s.
Proof. statement_only.
  unfold ReferenceOffsets. rewrite ReferenceOffsets_loop_lookup, lookup_empty.
  cbn [default app].
  destruct (String.eqb_spec s "") as [Hs|Hs].
  { split; [tauto | discriminate]. }
  pose proof (positions_of_nil s insns 0) as Hnil.
  pose proof (positions_of_sorted s insns 0) as [Hsorted _].
  pose proof (positions_of_spec s insns 0) as Hspec.
  destruct (positions_of s 0 insns) as [|k0 l0].
  - split; [|discriminate]. split; [intros _; right; apply Hnil; reflexivity | reflexivity].
  - split.
    + split; [discriminate|]. intros [H | H]; [contradiction|].
      apply Hnil in H. discriminate.
    + intros l [= <-]. split; [discriminate|]. split; [exact Hsorted|].
      intros k. rewrite Hspec. split; intros (j & ins & Hk & H); exists j, ins;
        (split; [lia | exact H]).
Qed.

(** X14: a symbol is unreferenced for [Instructions.RewriteMapPtr]
    exactly when [ReferenceOffsets] has no entry for it: for a symbol that
    is not empty, the error of [Instructions.RewriteMapPtr], when there is
    one, satisfies [IsUnreferencedSymbol] if and only if the symbol is not
    a key of the reference table. *)
Theorem unreferenced_iff_no_entry
        (insns : list Instruction) (symbol : string) (fd : Z) (e : error) :
  symbol <> ""%string ->
  snd (Instructions_RewriteMapPtr insns symbol fd) = Some e ->
  (IsUnreferencedSymbol e = true <-> ReferenceOffsets insns !! symbol = None)
  /\ (IsUnreferencedSymbol e = true -> e = unreferencedSymbolError symbol).
Proof.
  intros Hne He.
  pose proof (ReferenceOffsets_None insns symbol) as Hnone.
  unfold Instructions_RewriteMapPtr in He.
  pose proof Hne as Hne'. apply String.eqb_neq in Hne'. rewrite Hne' in He.
  destruct (RewriteMapPtr_loop_cases symbol fd insns false)
    as [[Hall H] | (pre & x & post & e' & -> & Hpre & Hx & Hn & Hx' & H)];
    rewrite H in He; cbn [orb snd] in He.
  - destruct (existsb (fun ins => String.eqb (Reference ins) symbol) insns) eqn:E;
      cbn [negb snd] in He; [discriminate|].
    injection He as <-. cbn [IsUnreferencedSymbol].
    split; [|reflexivity]. split; [|reflexivity]. intros _.
    apply Hnone. right. intros ins Hin Hr.
    assert (Hex : existsb (fun ins => String.eqb (Reference ins) symbol) insns = true)
      by (apply existsb_Reference; eauto).
    congruence.
  - injection He as <-.
    destruct (RewriteMapPtr_rejects x fd Hn) as (e0 & He0 & Hkind).
    rewrite He0 in Hx'. injection Hx' as <-.
    assert (Hfalse : IsUnreferencedSymbol e0 = false)
      by (destruct Hkind as [-> | ->]; reflexivity).
    rewrite Hfalse. split; [|discriminate]. split; [discriminate|].
    intros Hn0. apply Hnone in Hn0 as [? | Hn0]; [contradiction|].
    exfalso. apply (Hn0 x); [|exact Hx].
    apply elem_of_app. right. apply list_elem_of_here.
Qed.

(** ** More on [Instructions.Marshal] *)

Lemma index_duplicate_fails step insns i j a b :
  (i < j)%nat -> insns !! i = Some a -> insns !! j = Some b ->
  Symbol a <> ""%string -> Symbol a = Symbol b ->
  exists s, offsets_loop step ∅ 0 insns = Err (ErrDuplicateSymbol s)
            /\ s <> ""%string.
Proof.
  intros Hij Hi Hj Ha Hab.
  destruct (offsets_loop step ∅ 0 insns) as [m|e] eqn:E.
  { exfalso. exact (offsets_loop_distinct _ _ _ _ _ _ _ _ _ E Hij Hi Hj Ha Hab). }
  destruct (offsets_loop_error _ _ _ _ _ E) as (s & _ & _ & -> & Hs & _).
  eauto.
Qed.

(** X15: the symbols are checked before anything is written: when two
    instructions carry the same non-empty symbol, [Instructions.Marshal]
    fails with the duplicate symbol error of [marshalledOffsets] and
    leaves the writer as it was, whatever the instructions are. *)
Theorem Instructions_Marshal_duplicate
        (insns : list Instruction) (w : Writer) (bo : ByteOrder)
        (i j : nat) (a b : Instruction) :
  (i < j)%nat -> insns !! i = Some a -> insns !! j = Some b ->
  Symbol a <> ""%string -> Symbol a = Symbol b ->
  exists s,
    s <> ""%string
    /\ marshalledOffsets insns = Err (ErrDuplicateSymbol s)
    /\ Instructions_Marshal insns w bo = (w, Some (ErrDuplicateSymbol s)).
Proof.
  intros Hij Hi Hj Ha Hab.
  destruct (index_duplicate_fails
              (fun ins => marshalledInstructions (OpCode ins))
              insns i j a b Hij Hi Hj Ha Hab) as (s & Hs & Hne).
  exists s. split; [exact Hne|].
  unfold Instructions_Marshal, marshalledOffsets.
  rewrite marshalledOffsets_loop_eq, Hs. auto.
Qed.


Lemma Marshal_loop_plain tbl bo insns : forall i num w,
  Forall plain insns ->
  Marshal_loop tbl i num insns w bo
  = (w ++ concat ((fun ins => Marshal_bytes ins bo) <$> insns), None).
Proof.
  induction insns as [|ins rest IH]; intros i num w Hall; cbn [Marshal_loop].
  { cbn. rewrite app_nil_r. reflexivity. }
  apply Forall_cons in Hall as [(Hop & Hnc & Hnb) Hrest].
  destruct (resolve_cases tbl i num ins) as [[H _] | [[H _] | (_ & _ & ->)]];
    try contradiction.
  destruct (Marshal_ok ins w bo Hop) as [-> _].
  rewrite IH by exact Hrest. cbn [fmap list_fmap concat].
  rewrite <- app_assoc. reflexivity.
Qed.

(** X17: a program in which no instruction is a pending call or branch,
    with valid opcodes and no repeated symbol, is written as the bytes of
    its instructions one after the other, as [Marshal] writes each; its
    symbols and references play no part. *)
Theorem Instructions_Marshal_plain
        (insns : list Instruction) (w : Writer) (bo : ByteOrder) :
  NoDup (symbols_of insns) ->
  Forall plain insns ->
  Instructions_Marshal insns w bo
  = (w ++ concat ((fun ins => Marshal_bytes ins bo) <$> insns), None).
Proof.
  intros Hnd Hall. unfold Instructions_Marshal, marshalledOffsets.
  rewrite marshalledOffsets_loop_eq.
  destruct (offsets_loop_complete
              (fun ins => marshalledInstructions (OpCode ins)) insns ∅ 0 Hnd)
    as [tbl ->].
  { intros s _. apply lookup_empty. }
  apply Marshal_loop_plain. exact Hall.
Qed.


(** ** More on the two symbol tables *)

Lemma offsets_loop_entry step insns m' s t :
  offsets_loop step ∅ 0 insns = Ok m' -> m' !! s = Some t ->
  exists j tgt,
    insns !! j = Some tgt /\ Symbol tgt = s /\ s <> ""%string
    /\ t = span step (take j insns).
Proof.
  intros Htbl Hs.
  destruct (decide (s ∈ symbols_of insns)) as [Hin|Hnotin].
  - apply list_elem_of_filter in Hin as [Hne Hin].
    apply list_elem_of_fmap in Hin as (tgt & -> & Hin).
    apply list_elem_of_lookup in Hin as [j Hj].
    destruct (offsets_loop_sound _ _ _ _ _ _ _ Htbl Hj Hne) as [_ Hpos].
    rewrite Hs in Hpos. injection Hpos as ->.
    exists j, tgt. rewrite Z.add_0_l. auto.
  - rewrite (offsets_loop_other _ _ _ _ _ _ Htbl Hnotin), lookup_empty in Hs.
    discriminate.
Qed.

Lemma offsets_loop_ext step1 step2 insns : forall m p,
  Forall (fun ins => step1 ins = step2 ins) insns ->
  offsets_loop step1 m p insns = offsets_loop step2 m p insns.
Proof.
  induction insns as [|ins rest IH]; intros m p Hall; cbn; [reflexivity|].
  apply Forall_cons in Hall as [-> Hrest].
  destruct (String.eqb (Symbol ins) ""); [apply IH; exact Hrest|].
  destruct (m !! Symbol ins); [reflexivity | apply IH; exact Hrest].
Qed.

(** X19: in a program without 64 bit loads the slot of a symbol is the
    index of its instruction: [marshalledOffsets] and [SymbolOffsets]
    return the same table, or fail with the same error. *)
Theorem marshalledOffsets_single_slots (insns : list Instruction) :
  Forall (fun ins => isDWordLoad (OpCode ins) = false) insns ->
  marshalledOffsets insns = SymbolOffsets insns.
Proof.
  intros Hall. unfold marshalledOffsets, SymbolOffsets.
  rewrite marshalledOffsets_loop_eq, SymbolOffsets_loop_eq.
  apply offsets_loop_ext. eapply Forall_impl; [exact Hall|].
  intros ins H. cbn in H. unfold marshalledInstructions. rewrite H. reflexivity.
Qed.

(** X20: the two tables of a program have the same symbols, and the slot
    of a symbol lies between the index of its instruction and twice that
    index, the index being below the length of the program. *)
Theorem symbol_tables_compare
        (insns : list Instruction) (m1 m2 : gmap string Z) (s : string) :
  SymbolOffsets insns = Ok m1 ->
  marshalledOffsets insns = Ok m2 ->
  (m1 !! s = None <-> m2 !! s = None)
  /\ forall i, m1 !! s = Some i ->
       0 <= i < Z.of_nat (length insns)
       /\ exists p, m2 !! s = Some p /\ i <= p <= 2 * i.
Proof.
  unfold SymbolOffsets, marshalledOffsets.
  rewrite SymbolOffsets_loop_eq, marshalledOffsets_loop_eq. intros H1 H2.
  assert (Hentry : forall i, m1 !! s = Some i ->
            0 <= i < Z.of_nat (length insns)
            /\ exists p, m2 !! s = Some p /\ i <= p <= 2 * i).
  { intros i Hi.
    destruct (offsets_loop_entry _ _ _ _ _ H1 Hi) as (j & tgt & Hj & <- & Hne & ->).
    destruct (offsets_loop_sound _ _ _ _ _ _ _ H2 Hj Hne) as [_ Hp].
    pose proof (lookup_lt_Some _ _ _ Hj) as Hlt.
    rewrite span_one, length_take. split; [lia|].
    eexists. split; [exact Hp|]. rewrite Z.add_0_l.
    change (span (fun ins => marshalledInstructions (OpCode ins)) (take j insns))
      with (slots (take j insns)).
    rewrite slots_count, length_take.
    pose proof (length_filter
                  (fun ins => isDWordLoad (OpCode ins) = true) (take j insns)) as Hf.
    rewrite length_take in Hf. lia. }
  split; [|exact Hentry].
  split; intros Hnone.
  - destruct (m2 !! s) as [p|] eqn:Hp; [|reflexivity].
    destruct (offsets_loop_entry _ _ _ _ _ H2 Hp) as (j & tgt & Hj & <- & Hne & _).
    destruct (offsets_loop_sound _ _ _ _ _ _ _ H1 Hj Hne) as [_ Hq]. congruence.
  - destruct (m1 !! s) as [i|] eqn:Hi; [|reflexivity].
    destruct (Hentry i eq_refl) as (_ & p & Hp & _). congruence.
Qed.

End Asm.

(** ** The theorems on concrete programs

    The opcodes and registers are those of [Layout]. *)

(** A closed goal [a <= b < c]. *)
Ltac in_range := vm_compute; split; [discriminate | reflexivity].

Lemma Unmarshal_Marshal_roundtrip_witness :
  let ins := mkInstruction Layout.LoadImmDWord 1 2 (-7) 4294967297 "" "" in
  wf_Instruction ins
  /\ OpCode ins <> Layout.InvalidOpCode
  /\ exists bs n,
      Marshal Layout.InvalidOpCode Layout.isDWordLoad ins [] BigEndian
      = ([] ++ bs, Ok n)
      /\ n = Z.of_nat (length bs)
      /\ n = (if Layout.isDWordLoad (OpCode ins) then 16 else 8)
      /\ Unmarshal Layout.isDWordLoad zeroInstruction (bs ++ []) BigEndian
         = (mkInstruction (OpCode ins) (Dst ins) (Src ins) (Offset ins)
                          (Constant ins) "" "", [], Ok n)
      /\ (Layout.isDWordLoad (OpCode ins) = true ->
          Constant ins = 4294967297 ->
          bs = encode_slot BigEndian
                 (mkBpf (OpCode ins) (newBPFRegisters (Dst ins) (Src ins))
                        (Offset ins) 1)
               ++ encode_slot BigEndian (mkBpf 0 0 0 1)).
Proof.
  intros ins.
  assert (Hwf : wf_Instruction ins).
  { constructor; in_range. }
  assert (Hop : OpCode ins <> Layout.InvalidOpCode) by (cbn; discriminate).
  split; [exact Hwf|]. split; [exact Hop|].
  apply (Unmarshal_Marshal_roundtrip
           Layout.InvalidOpCode Layout.isDWordLoad ins zeroInstruction []
           [] BigEndian Hwf Hop).
  - reflexivity.
  - reflexivity.
  - discriminate.
Defined.

(** C1 as stated fails: an instruction that is not a 64 bit load and whose
    constant is 0x1_0000_0001 is encoded in one slot and decoded with the
    constant 1. *)
Lemma Unmarshal_Marshal_truncates_constant :
  let ins := mkInstruction Layout.opMov 1 2 0 4294967297 "" "" in
  wf_Instruction ins
  /\ OpCode ins <> Layout.InvalidOpCode
  /\ exists bs ins',
      Marshal Layout.InvalidOpCode Layout.isDWordLoad ins [] LittleEndian
      = (bs, Ok 8)
      /\ Unmarshal Layout.isDWordLoad zeroInstruction bs LittleEndian
         = (ins', [], Ok 8)
      /\ Constant ins' = 1
      /\ ins' <> ins.
Proof.
  intros ins. split.
  { constructor; in_range. }
  split; [cbn; discriminate|].
  eexists _, _. split; [vm_compute; reflexivity|].
  split; [vm_compute; reflexivity|].
  split; [reflexivity | discriminate].
Qed.

Lemma Marshal_relative_addressing_witness :
  let jmp := mkInstruction Layout.opJa 0 0 (-1) 0 "L" "" in
  let nop := mkInstruction Layout.opMov 0 0 0 0 "" "" in
  let insns := [jmp; nop; Sym nop "L"] in
  let tbl : gmap string Z := <["L"%string := 2]> ∅ in
  let encodes := encodes Layout.InvalidOpCode Layout.Class Layout.JumpClass
                         Layout.JumpOp Layout.Call tbl in
  insns = [] ++ jmp :: [nop; Sym nop "L"]
  /\ marshalledOffsets Layout.isDWordLoad insns = Ok tbl
  /\ Forall encodes [] /\ encodes jmp
  /\ pending_branch Layout.Class Layout.JumpClass Layout.JumpOp Layout.Call jmp
  /\ exists t,
      (tbl !! Reference jmp = Some t
       /\ exists j tgt,
           insns !! j = Some tgt /\ Symbol tgt = Reference jmp
           /\ t = slots Layout.isDWordLoad (take j insns))
      /\ exists before after e,
          Z.of_nat (length before) = 8 * slots Layout.isDWordLoad []
          /\ Instructions_Marshal Layout.InvalidOpCode Layout.isDWordLoad
               Layout.Class Layout.JumpClass Layout.JumpOp Layout.Call
               insns [] LittleEndian
             = ([] ++ before
                ++ Marshal_bytes Layout.InvalidOpCode Layout.isDWordLoad
                     (set_Offset (int16 (t - slots Layout.isDWordLoad [] - 1)) jmp)
                     LittleEndian
                ++ after, e).
Proof.
  intros jmp nop insns tbl encodes.
  assert (H1 : insns = [] ++ jmp :: [nop; Sym nop "L"]) by reflexivity.
  assert (H2 : marshalledOffsets Layout.isDWordLoad insns = Ok tbl)
    by reflexivity.
  assert (H3 : Forall encodes []) by apply Forall_nil_2.
  assert (H4 : encodes jmp).
  { split; [discriminate|]. intros _. exists 2. reflexivity. }
  assert (H5 : pending_branch Layout.Class Layout.JumpClass Layout.JumpOp
                 Layout.Call jmp).
  { split; [intros [H _]; discriminate H | split; reflexivity]. }
  repeat (split; [assumption|]).
  exact (proj1 (proj2 (Marshal_relative_addressing
                         Layout.InvalidOpCode Layout.isDWordLoad Layout.Class
                         Layout.JumpClass Layout.JumpOp Layout.Call
                         insns [] [nop; Sym nop "L"] jmp tbl [] LittleEndian
                         H1 H2 H3 H4)) H5).
Defined.

Lemma Marshal_rewrites_call_of_any_source_witness :
  let call := mkInstruction Layout.opCall 0 Layout.R0 0 (-1) "L" "" in
  let exit := mkInstruction Layout.opExit 0 0 0 0 "" "L" in
  let tbl : gmap string Z := <["L"%string := 1]> ∅ in
  Layout.JumpOp (OpCode call) = Layout.Call
  /\ Constant call = -1
  /\ Src call <> Layout.PseudoCall
  /\ marshalledOffsets Layout.isDWordLoad [call; exit] = Ok tbl
  /\ tbl !! Reference call = Some 1
  /\ Marshal_bytes Layout.InvalidOpCode Layout.isDWordLoad
       (set_Constant (1 - 0 - 1) call) LittleEndian
     = encode_slot LittleEndian (mkBpf Layout.opCall 0 0 0)
  /\ exists after e,
      Instructions_Marshal Layout.InvalidOpCode Layout.isDWordLoad Layout.Class
        Layout.JumpClass Layout.JumpOp Layout.Call [call; exit] [] LittleEndian
      = ([] ++ Marshal_bytes Layout.InvalidOpCode Layout.isDWordLoad
                 (set_Constant (1 - 0 - 1) call) LittleEndian ++ after, e).
Proof.
  intros call exit tbl.
  assert (H1 : Layout.JumpOp (OpCode call) = Layout.Call) by reflexivity.
  assert (H2 : Constant call = -1) by reflexivity.
  assert (H3 : Src call <> Layout.PseudoCall) by discriminate.
  assert (H4 : OpCode call <> Layout.InvalidOpCode) by discriminate.
  assert (H5 : marshalledOffsets Layout.isDWordLoad [call; exit] = Ok tbl)
    by reflexivity.
  assert (H6 : tbl !! Reference call = Some 1) by reflexivity.
  repeat (split; [first [assumption | reflexivity]|]).
  exact (Marshal_rewrites_call_of_any_source
           Layout.InvalidOpCode Layout.isDWordLoad Layout.Class Layout.JumpClass
           Layout.JumpOp Layout.Call Layout.PseudoCall call [exit] tbl 1 []
           LittleEndian H1 H2 H3 H4 H5 H6).
Defined.

Lemma symbol_tables_witness :
  let a := mkInstruction Layout.opMov 0 0 0 0 "" "X" in
  let b := mkInstruction Layout.LoadImmDWord 0 0 0 0 "" "" in
  let c := mkInstruction Layout.opExit 0 0 0 0 "" "Y" in
  (exists s,
      SymbolOffsets [a; b; a] = Err (ErrDuplicateSymbol s)
      /\ marshalledOffsets Layout.isDWordLoad [a; b; a] = Err (ErrDuplicateSymbol s))
  /\ NoDup (symbols_of [a; b; c])
  /\ exists m1 m2,
      SymbolOffsets [a; b; c] = Ok m1
      /\ marshalledOffsets Layout.isDWordLoad [a; b; c] = Ok m2
      /\ m1 !! "Y"%string = Some 2
      /\ m2 !! "Y"%string = Some (slots Layout.isDWordLoad [a; b]).
Proof.
  intros a b c.
  assert (Hnd : NoDup (symbols_of [a; b; c])).
  { change (symbols_of [a; b; c]) with ["X"%string; "Y"%string].
    apply NoDup_cons. split; [|apply NoDup_singleton].
    intros H. apply list_elem_of_singleton in H. discriminate. }
  split; [|split; [exact Hnd|]].
  - destruct (proj1 (symbol_tables Layout.isDWordLoad [a; b; a])
                    0%nat 2%nat a a) as (s & H1 & H2 & _);
      [lia | reflexivity | reflexivity | discriminate | reflexivity |].
    exists s. split; assumption.
  - destruct (proj1 (proj2 (symbol_tables Layout.isDWordLoad [a; b; c])) Hnd)
      as (m1 & m2 & H1 & H2 & Hpos & _).
    exists m1, m2. split; [exact H1|]. split; [exact H2|].
    apply (Hpos 2%nat c); [reflexivity | discriminate].
Defined.

Lemma map_rewrites_either_order_witness :
  let ins := mkInstruction Layout.LoadImmDWord 1 Layout.PseudoMapValue 0 0 "m" "" in
  is_uint32 4
  /\ Layout.isDWordLoad (OpCode ins) = true
  /\ Src ins = Layout.PseudoMapValue
  /\ exists a b a' b',
      RewriteMapPtr Layout.isDWordLoad Layout.PseudoMapFD Layout.PseudoMapValue
        ins (-1) = (a, None)
      /\ RewriteMapOffset Layout.isDWordLoad Layout.PseudoMapValue a 4 = (b, None)
      /\ RewriteMapOffset Layout.isDWordLoad Layout.PseudoMapValue ins 4 = (a', None)
      /\ RewriteMapPtr Layout.isDWordLoad Layout.PseudoMapFD Layout.PseudoMapValue
           a' (-1) = (b', None)
      /\ b = b'
      /\ mapPtr b = uint32 (-1) /\ mapOffset b = 4
      /\ mapOffset a = mapOffset ins
      /\ mapPtr a' = mapPtr ins.
Proof.
  intros ins.
  assert (H1 : is_uint32 4) by in_range.
  assert (H2 : Layout.isDWordLoad (OpCode ins) = true) by reflexivity.
  assert (H3 : Src ins = Layout.PseudoMapValue) by reflexivity.
  repeat (split; [assumption|]).
  exact (map_rewrites_either_order
           Layout.isDWordLoad Layout.PseudoMapFD Layout.PseudoMapValue
           ins (-1) 4 H1 H2 H3).
Defined.

Lemma unreferenced_and_missing_symbols_witness :
  let nop := mkInstruction Layout.opMov 0 0 0 0 "" "" in
  let jmp := mkInstruction Layout.opJa 0 0 (-1) 0 "L" "" in
  (Instructions_RewriteMapPtr Layout.isDWordLoad Layout.PseudoMapFD
     Layout.PseudoMapValue [nop] "m" 3
   = ([nop], Some (unreferencedSymbolError "m"))
   /\ IsUnreferencedSymbol (unreferencedSymbolError "m") = true)
  /\ marshalledOffsets Layout.isDWordLoad [nop; jmp] = Ok ∅
  /\ pending_branch Layout.Class Layout.JumpClass Layout.JumpOp Layout.Call jmp
  /\ Forall (encodes Layout.InvalidOpCode Layout.Class Layout.JumpClass
               Layout.JumpOp Layout.Call ∅) [nop]
  /\ exists w',
      Instructions_Marshal Layout.InvalidOpCode Layout.isDWordLoad Layout.Class
        Layout.JumpClass Layout.JumpOp Layout.Call [nop; jmp] [] LittleEndian
      = (w', Some (ErrMissingSymbol 1 "L"))
      /\ IsUnreferencedSymbol (ErrMissingSymbol 1 "L") = false.
Proof.
  intros nop jmp.
  pose proof (unreferenced_and_missing_symbols
                Layout.InvalidOpCode Layout.isDWordLoad Layout.Class
                Layout.JumpClass Layout.JumpOp Layout.Call
                Layout.PseudoMapFD Layout.PseudoMapValue) as [Hone Htwo].
  assert (H1 : marshalledOffsets Layout.isDWordLoad [nop; jmp] = Ok ∅)
    by reflexivity.
  assert (H2 : pending_branch Layout.Class Layout.JumpClass Layout.JumpOp
                 Layout.Call jmp).
  { split; [intros [H _]; discriminate H | split; reflexivity]. }
  assert (H3 : Forall (encodes Layout.InvalidOpCode Layout.Class Layout.JumpClass
                         Layout.JumpOp Layout.Call ∅) [nop]).
  { apply Forall_cons. split; [|apply Forall_nil_2].
    split; [discriminate|].
    intros [[_ H] | (_ & _ & H)]; discriminate H. }
  split; [|split; [exact H1|split; [exact H2|split; [exact H3|]]]].
  - apply Hone; [discriminate|].
    apply Forall_cons. split; [discriminate | apply Forall_nil_2].
  - destruct (Htwo [nop; jmp] [nop] [] jmp ∅ [] LittleEndian
                eq_refl H1 (or_intror H2) eq_refl)
      as (w' & e & HM & He & _ & Hfirst).
    rewrite (Hfirst H3) in HM, He. exists w'. split; assumption.
Defined.

(** C6 as stated fails: when an instruction before the pending one has the
    invalid opcode, the error of [Instructions.Marshal] names that
    instruction and no symbol. *)
Lemma Marshal_reports_first_failure :
  let bad := mkInstruction Layout.InvalidOpCode 0 0 0 0 "" "" in
  let jmp := mkInstruction Layout.opJa 0 0 (-1) 0 "L" "" in
  marshalledOffsets Layout.isDWordLoad [bad; jmp] = Ok ∅
  /\ pending_branch Layout.Class Layout.JumpClass Layout.JumpOp Layout.Call jmp
  /\ (∅ : gmap string Z) !! Reference jmp = None
  /\ Instructions_Marshal Layout.InvalidOpCode Layout.isDWordLoad Layout.Class
       Layout.JumpClass Layout.JumpOp Layout.Call [bad; jmp] [] LittleEndian
     = ([], Some (ErrInstruction 0 ErrInvalidOpcode))
  /\ ErrInstruction 0 ErrInvalidOpcode <> ErrMissingSymbol 1 "L".
Proof.
  intros bad jmp. split; [reflexivity|].
  split; [split; [intros [H _]; discriminate H | split; reflexivity]|].
  split; [reflexivity|]. split; [reflexivity | discriminate].
Qed.

Lemma Unmarshal_second_slot_witness :
  let bs1 := encode_slot LittleEndian (mkBpf Layout.LoadImmDWord 1 0 (-2)) in
  let bad := encode_slot LittleEndian (mkBpf 0 16 0 7) in
  let good := encode_slot LittleEndian (mkBpf 0 0 0 7) in
  length bs1 = 8%nat /\ length bad = 8%nat /\ length good = 8%nat
  /\ Layout.isDWordLoad (bi_OpCode (decode_slot LittleEndian bs1)) = true
  /\ Unmarshal Layout.isDWordLoad zeroInstruction (bs1 ++ bad ++ []) LittleEndian
     = (mkInstruction Layout.LoadImmDWord 1 0 0 (-2) "" "", [],
        Err ErrNonZeroFields)
  /\ Unmarshal Layout.isDWordLoad zeroInstruction (bs1 ++ good ++ []) LittleEndian
     = (mkInstruction Layout.LoadImmDWord 1 0 0
                      (int64 (Z.lor (Z.shiftl (uint32 7) 32) (uint32 (-2)))) "" "",
        [], Ok 16).
Proof.
  intros bs1 bad good.
  assert (H1 : length bs1 = 8%nat) by reflexivity.
  assert (H2 : length bad = 8%nat) by reflexivity.
  assert (H3 : length good = 8%nat) by reflexivity.
  assert (H4 : Layout.isDWordLoad (bi_OpCode (decode_slot LittleEndian bs1)) = true)
    by reflexivity.
  repeat (split; [assumption|]). split.
  - rewrite (proj1 (Unmarshal_second_slot Layout.isDWordLoad zeroInstruction
                      bs1 bad [] LittleEndian H1 H2 H4)).
    + reflexivity.
    + right. right. discriminate.
  - rewrite (proj2 (Unmarshal_second_slot Layout.isDWordLoad zeroInstruction
                      bs1 good [] LittleEndian H1 H3 H4)).
    + reflexivity.
    + repeat split; reflexivity.
Defined.

Lemma Unmarshal_missing_second_half_witness :
  let bs1 := encode_slot BigEndian (mkBpf Layout.LoadImmDWord 1 0 5) in
  let tail := ["000"%byte; "000"%byte; "000"%byte] in
  length bs1 = 8%nat /\ (length tail < 8)%nat
  /\ Layout.isDWordLoad (bi_OpCode (decode_slot BigEndian bs1)) = true
  /\ (exists ins' r',
         Unmarshal Layout.isDWordLoad zeroInstruction (bs1 ++ tail) BigEndian
         = (ins', r', Err ErrMissingSecondHalf))
  /\ ErrMissingSecondHalf <> EOF
  /\ Unmarshal Layout.isDWordLoad zeroInstruction [] BigEndian
     = (zeroInstruction, [], Err EOF).
Proof.
  intros bs1 tail.
  assert (H1 : length bs1 = 8%nat) by reflexivity.
  assert (H2 : (length tail < 8)%nat) by (cbn; lia).
  assert (H3 : Layout.isDWordLoad (bi_OpCode (decode_slot BigEndian bs1)) = true)
    by reflexivity.
  repeat (split; [assumption|]).
  exact (Unmarshal_missing_second_half Layout.isDWordLoad zeroInstruction
           bs1 tail BigEndian H1 H2 H3).
Defined.

Lemma RewriteMapOffset_fails_iff_witness :
  let ins := mkInstruction Layout.LoadImmDWord 1 Layout.PseudoMapValue 0 7 "m" "" in
  is_uint32 4
  /\ Layout.isDWordLoad (OpCode ins) = true
  /\ Src ins = Layout.PseudoMapValue
  /\ exists ins',
      RewriteMapOffset Layout.isDWordLoad Layout.PseudoMapValue ins 4
      = (ins', None)
      /\ mapPtr ins' = mapPtr ins /\ mapOffset ins' = 4
      /\ ins' = set_Constant (Constant ins') ins.
Proof.
  intros ins.
  assert (H1 : is_uint32 4) by in_range.
  assert (H2 : Layout.isDWordLoad (OpCode ins) = true) by reflexivity.
  assert (H3 : Src ins = Layout.PseudoMapValue) by reflexivity.
  repeat (split; [assumption|]).
  exact (proj2 (proj2 (RewriteMapOffset_fails_iff
                         Layout.isDWordLoad Layout.PseudoMapValue ins 4 H1))
               H2 H3).
Defined.

(** C9 as stated fails: [RewriteMapOffset] on an instruction that is not a
    64 bit load fails although its source is [PseudoMapValue]. *)
Lemma RewriteMapOffset_fails_on_single_slot :
  let ins := mkInstruction Layout.opMov 1 Layout.PseudoMapValue 0 0 "m" "" in
  Src ins = Layout.PseudoMapValue
  /\ RewriteMapOffset Layout.isDWordLoad Layout.PseudoMapValue ins 4
     = (ins, Some (ErrNot64BitLoad Layout.opMov)).
Proof. intros ins. split; reflexivity. Qed.

(** ** The further theorems on concrete programs *)

(** A closed goal that an instruction is not pending. *)
Ltac not_pending :=
  let H := fresh in
  intros H;
  first [ destruct H as [H _]; discriminate H
        | destruct H as [_ H]; discriminate H
        | destruct H as (_ & H & _); discriminate H
        | destruct H as (_ & _ & H); discriminate H ].

Lemma bpfRegisters_pack_unpack_witness :
  is_uint8 33 /\ is_uint8 31 /\ is_uint8 2
  /\ newBPFRegisters (bpfRegisters_Dst 33) (bpfRegisters_Src 33) = 33
  /\ 0 <= bpfRegisters_Dst 33 < 16 /\ 0 <= bpfRegisters_Src 33 < 16
  /\ bpfRegisters_Dst (newBPFRegisters 31 2) = 31 mod 16
  /\ bpfRegisters_Src (newBPFRegisters 31 2) = 2 mod 16
  /\ is_uint8 (newBPFRegisters 31 2).
Proof.
  assert (H1 : is_uint8 33) by in_range.
  assert (H2 : is_uint8 31) by in_range.
  assert (H3 : is_uint8 2) by in_range.
  repeat (split; [assumption|]).
  exact (bpfRegisters_pack_unpack 33 31 2 H1 H2 H3).
Defined.


Lemma Marshal_ignores_witness :
  let ins := mkInstruction Layout.opMov 1 2 0 5 "" "" in
  let ins' := mkInstruction Layout.opMov 17 18 0 4294967301 "map" "entry" in
  OpCode ins' = OpCode ins
  /\ Dst ins' mod 16 = Dst ins mod 16
  /\ Src ins' mod 16 = Src ins mod 16
  /\ Offset ins' = Offset ins
  /\ Constant ins' mod 2 ^ 32 = Constant ins mod 2 ^ 32
  /\ Marshal Layout.InvalidOpCode Layout.isDWordLoad ins' [] BigEndian
     = Marshal Layout.InvalidOpCode Layout.isDWordLoad ins [] BigEndian.
Proof.
  intros ins ins'.
  assert (H1 : OpCode ins' = OpCode ins) by reflexivity.
  assert (H2 : Dst ins' mod 16 = Dst ins mod 16) by reflexivity.
  assert (H3 : Src ins' mod 16 = Src ins mod 16) by reflexivity.
  assert (H4 : Offset ins' = Offset ins) by reflexivity.
  assert (H5 : Constant ins' mod 2 ^ 32 = Constant ins mod 2 ^ 32) by reflexivity.
  repeat (split; [assumption|]).
  exact (Marshal_ignores Layout.InvalidOpCode Layout.isDWordLoad ins ins' []
           BigEndian H1 H2 H3 H4 H5).
Defined.

Lemma Unmarshal_outcome_witness :
  let short := ["005"%byte; "000"%byte; "000"%byte] in
  let half := encode_slot LittleEndian (mkBpf Layout.LoadImmDWord 1 0 9)
              ++ ["000"%byte] in
  (0 < length short < 8)%nat
  /\ Unmarshal Layout.isDWordLoad zeroInstruction short LittleEndian
     = (zeroInstruction, [], Err ErrUnexpectedEOF)
  /\ (8 <= length half < 16)%nat
  /\ Unmarshal Layout.isDWordLoad zeroInstruction half LittleEndian
     = (mkInstruction Layout.LoadImmDWord 1 0 0 9 "" "", [],
        Err ErrMissingSecondHalf).
Proof.
  intros short half.
  assert (H1 : (0 < length short < 8)%nat) by (cbn; lia).
  assert (H2 : (8 <= length half < 16)%nat) by (cbn; lia).
  split; [exact H1|].
  split; [exact (proj1 (Unmarshal_outcome Layout.isDWordLoad zeroInstruction
                          short LittleEndian) H1)|].
  split; [exact H2|].
  exact (proj2 (proj2 (Unmarshal_outcome Layout.isDWordLoad zeroInstruction
                         half LittleEndian)) H2 eq_refl).
Defined.

Lemma Unmarshal_result_witness :
  let r := encode_slot BigEndian (mkBpf Layout.opMov 33 4 (-3)) ++ ["001"%byte] in
  let ins' := mkInstruction Layout.opMov 1 2 4 (-3) "" "" in
  Unmarshal Layout.isDWordLoad zeroInstruction r BigEndian
  = (ins', ["001"%byte], Ok 8)
  /\ wf_Instruction ins'
  /\ Dst ins' < 16 /\ Src ins' < 16
  /\ (Layout.isDWordLoad (OpCode ins') = false -> is_int32 (Constant ins'))
  /\ Reference ins' = Reference zeroInstruction
  /\ Symbol ins' = Symbol zeroInstruction
  /\ 8 = 8 * marshalledInstructions Layout.isDWordLoad (OpCode ins')
  /\ r = take (Z.to_nat 8) r ++ ["001"%byte]
  /\ Z.of_nat (length r) = 8 + Z.of_nat (length ["001"%byte]).
Proof.
  intros r ins'.
  assert (H : Unmarshal Layout.isDWordLoad zeroInstruction r BigEndian
              = (ins', ["001"%byte], Ok 8)) by reflexivity.
  split; [exact H|].
  exact (Unmarshal_result Layout.isDWordLoad zeroInstruction ins' r
           ["001"%byte] BigEndian 8 H).
Defined.

Lemma Marshal_Unmarshal_witness :
  let r := encode_slot LittleEndian (mkBpf Layout.LoadImmDWord 33 0 (-3))
           ++ encode_slot LittleEndian (mkBpf 0 0 0 6) ++ ["001"%byte] in
  let ins' := mkInstruction Layout.LoadImmDWord 1 2 0 30064771069 "" "" in
  Unmarshal Layout.isDWordLoad zeroInstruction r LittleEndian
  = (ins', ["001"%byte], Ok 16)
  /\ OpCode ins' <> Layout.InvalidOpCode
  /\ exists bs,
      Marshal Layout.InvalidOpCode Layout.isDWordLoad ins' [] LittleEndian
      = ([] ++ bs, Ok 16)
      /\ r = bs ++ ["001"%byte].
Proof.
  intros r ins'.
  assert (H1 : Unmarshal Layout.isDWordLoad zeroInstruction r LittleEndian
               = (ins', ["001"%byte], Ok 16)) by reflexivity.
  assert (H2 : OpCode ins' <> Layout.InvalidOpCode) by discriminate.
  split; [exact H1|]. split; [exact H2|].
  exact (Marshal_Unmarshal Layout.InvalidOpCode Layout.isDWordLoad
           zeroInstruction ins' r ["001"%byte] [] LittleEndian 16 H1 H2).
Defined.

Lemma RewriteMapPtr_outcome_witness :
  let ins := mkInstruction Layout.LoadImmDWord 1 Layout.PseudoMapFD 0 0 "m" "" in
  Layout.isDWordLoad (OpCode ins) = true
  /\ Src ins = Layout.PseudoMapFD
  /\ exists ins',
      RewriteMapPtr Layout.isDWordLoad Layout.PseudoMapFD Layout.PseudoMapValue
        ins 7 = (ins', None)
      /\ ins' = set_Constant (Constant ins') ins
      /\ is_int64 (Constant ins')
      /\ mapPtr ins' = uint32 7 /\ mapOffset ins' = mapOffset ins.
Proof.
  intros ins.
  assert (H1 : Layout.isDWordLoad (OpCode ins) = true) by reflexivity.
  assert (H2 : Src ins = Layout.PseudoMapFD) by reflexivity.
  split; [exact H1|]. split; [exact H2|].
  exact (proj2 (proj2 (RewriteMapPtr_outcome
                         Layout.isDWordLoad Layout.PseudoMapFD
                         Layout.PseudoMapValue ins 7)) H1 (or_introl H2)).
Defined.

Lemma map_constant_halves_witness :
  let ins := mkInstruction Layout.LoadImmDWord 1 Layout.PseudoMapValue 0 (-2) "m" "" in
  is_int64 (Constant ins)
  /\ Constant ins = int64 (Z.lor (Z.shiftl (mapOffset ins) 32) (mapPtr ins))
  /\ is_uint32 (mapPtr ins) /\ is_uint32 (mapOffset ins).
Proof.
  intros ins.
  assert (H : is_int64 (Constant ins)) by in_range.
  split; [exact H|]. exact (map_constant_halves ins H).
Defined.

Lemma map_rewrites_overwrite_witness :
  let ins := mkInstruction Layout.LoadImmDWord 1 Layout.PseudoMapValue 0 7 "m" "" in
  let RewriteMapPtr :=
    RewriteMapPtr Layout.isDWordLoad Layout.PseudoMapFD Layout.PseudoMapValue in
  let RewriteMapOffset :=
    RewriteMapOffset Layout.isDWordLoad Layout.PseudoMapValue in
  is_uint32 4 /\ is_uint32 8 /\ is_int64 (Constant ins)
  /\ Layout.isDWordLoad (OpCode ins) = true
  /\ Src ins = Layout.PseudoMapValue
  /\ RewriteMapPtr (fst (RewriteMapPtr ins 3)) (-1) = RewriteMapPtr ins (-1)
  /\ RewriteMapOffset (fst (RewriteMapOffset ins 4)) 8 = RewriteMapOffset ins 8
  /\ RewriteMapPtr ins (mapPtr ins) = (ins, None)
  /\ RewriteMapOffset ins (mapOffset ins) = (ins, None).
Proof.
  intros ins RMP RMO.
  assert (H1 : is_uint32 4) by in_range.
  assert (H2 : is_uint32 8) by in_range.
  assert (H3 : is_int64 (Constant ins)) by in_range.
  assert (H4 : Layout.isDWordLoad (OpCode ins) = true) by reflexivity.
  assert (H5 : Src ins = Layout.PseudoMapValue) by reflexivity.
  repeat (split; [assumption|]).
  exact (map_rewrites_overwrite Layout.isDWordLoad Layout.PseudoMapFD
           Layout.PseudoMapValue ins 3 (-1) 4 8 H1 H2 H3 H4 H5).
Defined.

Lemma Marshal_map_load_witness :
  let ins := mkInstruction Layout.LoadImmDWord 1 Layout.PseudoMapValue 0
                           17179869191 "m" "" in
  OpCode ins <> Layout.InvalidOpCode
  /\ Layout.isDWordLoad (OpCode ins) = true
  /\ mapPtr ins = 7 /\ mapOffset ins = 4
  /\ Marshal Layout.InvalidOpCode Layout.isDWordLoad ins [] LittleEndian
     = ([] ++ encode_slot LittleEndian
                (mkBpf (OpCode ins) (newBPFRegisters (Dst ins) (Src ins))
                       (Offset ins) (int32 (mapPtr ins)))
           ++ encode_slot LittleEndian (mkBpf 0 0 0 (int32 (mapOffset ins))),
        Ok 16).
Proof.
  intros ins.
  assert (H1 : OpCode ins <> Layout.InvalidOpCode) by discriminate.
  assert (H2 : Layout.isDWordLoad (OpCode ins) = true) by reflexivity.
  split; [exact H1|]. split; [exact H2|].
  split; [reflexivity|]. split; [reflexivity|].
  exact (Marshal_map_load Layout.InvalidOpCode Layout.isDWordLoad ins []
           LittleEndian H1 H2).
Defined.

Lemma Instructions_RewriteMapPtr_success_witness :
  let ld := mkInstruction Layout.LoadImmDWord 1 Layout.PseudoMapFD 0 0 "m" "" in
  let nop := mkInstruction Layout.opMov 0 0 0 0 "" "" in
  let is_map_load :=
    is_map_load Layout.isDWordLoad Layout.PseudoMapFD Layout.PseudoMapValue in
  let result :=
    Instructions_RewriteMapPtr Layout.isDWordLoad Layout.PseudoMapFD
      Layout.PseudoMapValue [ld; nop] "m" 7 in
  ("m"%string <> ""%string
   /\ (exists ins, ins ∈ [ld; nop] /\ Reference ins = "m"%string)
   /\ Forall (fun ins => Reference ins = "m"%string -> is_map_load ins) [ld; nop])
  /\ snd result = None
  /\ length (fst result) = length [ld; nop]
  /\ fst result = [set_Constant 7 ld; nop].
Proof.
  intros ld nop is_map_load result.
  pose proof (Instructions_RewriteMapPtr_success
                Layout.isDWordLoad Layout.PseudoMapFD Layout.PseudoMapValue
                [ld; nop] "m" 7) as [Hiff Hres].
  assert (H : "m"%string <> ""%string
              /\ (exists ins, ins ∈ [ld; nop] /\ Reference ins = "m"%string)
              /\ Forall (fun ins => Reference ins = "m"%string -> is_map_load ins)
                        [ld; nop]).
  { split; [discriminate|]. split.
    - exists ld. split; [apply list_elem_of_here | reflexivity].
    - apply Forall_cons. split.
      + intros _. split; [reflexivity | left; reflexivity].
      + apply Forall_cons. split; [discriminate | apply Forall_nil_2]. }
  split; [exact H|].
  split; [exact (proj2 Hiff H)|].
  split; [exact (proj1 (Hres (proj2 Hiff H)))|].
  reflexivity.
Defined.

Lemma Instructions_RewriteMapPtr_stops_witness :
  let ld := mkInstruction Layout.LoadImmDWord 1 Layout.PseudoMapFD 0 0 "m" "" in
  let mov := mkInstruction Layout.opMov 0 0 0 0 "m" "" in
  let is_map_load :=
    is_map_load Layout.isDWordLoad Layout.PseudoMapFD Layout.PseudoMapValue in
  "m"%string <> ""%string
  /\ Forall (fun ins => Reference ins = "m"%string -> is_map_load ins) [ld]
  /\ Reference mov = "m"%string /\ ~ is_map_load mov
  /\ Instructions_RewriteMapPtr Layout.isDWordLoad Layout.PseudoMapFD
       Layout.PseudoMapValue [ld; mov; ld] "m" 7
     = ([set_Constant 7 ld; mov; ld], Some (ErrNot64BitLoad Layout.opMov)).
Proof.
  intros ld mov is_map_load.
  assert (H1 : "m"%string <> ""%string) by discriminate.
  assert (H2 : Forall (fun ins => Reference ins = "m"%string -> is_map_load ins) [ld]).
  { apply Forall_cons. split; [|apply Forall_nil_2].
    intros _. split; [reflexivity | left; reflexivity]. }
  assert (H3 : Reference mov = "m"%string) by reflexivity.
  assert (H4 : ~ is_map_load mov) by (intros [H _]; discriminate H).
  repeat (split; [assumption|]).
  destruct (Instructions_RewriteMapPtr_stops
              Layout.isDWordLoad Layout.PseudoMapFD Layout.PseudoMapValue
              [ld; mov; ld] [ld] [ld] mov "m" 7 H1 eq_refl H2 H3 H4)
    as (e & He & _ & _ & Hres & _).
  injection He as <-. exact Hres.
Defined.

Lemma ReferenceOffsets_lookup_witness :
  let ld := mkInstruction Layout.LoadImmDWord 1 Layout.PseudoMapFD 0 0 "m" "" in
  let nop := mkInstruction Layout.opMov 0 0 0 0 "" "" in
  ReferenceOffsets [ld; nop; ld] !! "m"%string = Some [0; 2]
  /\ StronglySorted Z.lt [0; 2]
  /\ (ReferenceOffsets [ld; nop; ld] !! ""%string = None)
  /\ (ReferenceOffsets [ld; nop; ld] !! "k"%string = None).
Proof.
  intros ld nop.
  assert (H : ReferenceOffsets [ld; nop; ld] !! "m"%string = Some [0; 2])
    by reflexivity.
  split; [exact H|].
  split; [exact (proj1 (proj2 (proj2 (ReferenceOffsets_lookup [ld; nop; ld] "m")
                                     [0; 2] H)))|].
  split.
  - apply (proj1 (ReferenceOffsets_lookup [ld; nop; ld] "")). left. reflexivity.
  - apply (proj1 (ReferenceOffsets_lookup [ld; nop; ld] "k")). right.
    intros ins Hin. repeat (apply elem_of_cons in Hin as [-> | Hin]; [discriminate|]).
    inversion Hin.
Defined.

Lemma unreferenced_iff_no_entry_witness :
  let nop := mkInstruction Layout.opMov 0 0 0 0 "" "" in
  let e := unreferencedSymbolError "m" in
  "m"%string <> ""%string
  /\ snd (Instructions_RewriteMapPtr Layout.isDWordLoad Layout.PseudoMapFD
            Layout.PseudoMapValue [nop] "m" 7) = Some e
  /\ (IsUnreferencedSymbol e = true <-> ReferenceOffsets [nop] !! "m"%string = None)
  /\ (IsUnreferencedSymbol e = true -> e = unreferencedSymbolError "m").
Proof.
  intros nop e.
  assert (H1 : "m"%string <> ""%string) by discriminate.
  assert (H2 : snd (Instructions_RewriteMapPtr Layout.isDWordLoad
                      Layout.PseudoMapFD Layout.PseudoMapValue [nop] "m" 7)
               = Some e) by reflexivity.
  split; [exact H1|]. split; [exact H2|].
  exact (unreferenced_iff_no_entry Layout.isDWordLoad Layout.PseudoMapFD
           Layout.PseudoMapValue [nop] "m" 7 e H1 H2).
Defined.

Lemma Instructions_Marshal_duplicate_witness :
  let a := mkInstruction Layout.opMov 0 0 0 0 "" "X" in
  let bad := mkInstruction Layout.InvalidOpCode 0 0 0 0 "" "" in
  Symbol a <> ""%string
  /\ exists s,
      s <> ""%string
      /\ marshalledOffsets Layout.isDWordLoad [a; bad; a] = Err (ErrDuplicateSymbol s)
      /\ Instructions_Marshal Layout.InvalidOpCode Layout.isDWordLoad Layout.Class
           Layout.JumpClass Layout.JumpOp Layout.Call [a; bad; a]
           ["001"%byte] LittleEndian
         = (["001"%byte], Some (ErrDuplicateSymbol s)).
Proof.
  intros a bad.
  assert (H : Symbol a <> ""%string) by discriminate.
  split; [exact H|].
  refine (Instructions_Marshal_duplicate
            Layout.InvalidOpCode Layout.isDWordLoad Layout.Class Layout.JumpClass
            Layout.JumpOp Layout.Call [a; bad; a] ["001"%byte] LittleEndian
            0%nat 2%nat a a _ eq_refl eq_refl H eq_refl).
  lia.
Defined.


Lemma Instructions_Marshal_plain_witness :
  let mov := mkInstruction Layout.opMov 1 0 0 5 "" "start" in
  let exit := mkInstruction Layout.opExit 0 0 0 0 "" "L" in
  let plain := plain Layout.InvalidOpCode Layout.Class Layout.JumpClass
                     Layout.JumpOp Layout.Call in
  NoDup (symbols_of [mov; exit])
  /\ Forall plain [mov; exit]
  /\ Instructions_Marshal Layout.InvalidOpCode Layout.isDWordLoad Layout.Class
       Layout.JumpClass Layout.JumpOp Layout.Call [mov; exit] [] LittleEndian
     = ([] ++ concat ((fun ins => Marshal_bytes Layout.InvalidOpCode
                                    Layout.isDWordLoad ins LittleEndian)
                        <$> [mov; exit]), None).
Proof.
  intros mov exit plain.
  assert (H1 : NoDup (symbols_of [mov; exit])).
  { change (symbols_of [mov; exit]) with ["start"%string; "L"%string].
    apply NoDup_cons. split; [|apply NoDup_singleton].
    intros H. apply list_elem_of_singleton in H. discriminate. }
  assert (H2 : Forall plain [mov; exit]).
  { apply Forall_cons. split; [|apply Forall_cons; split; [|apply Forall_nil_2]];
      (split; [discriminate|]); split; not_pending. }
  split; [exact H1|]. split; [exact H2|].
  exact (Instructions_Marshal_plain
           Layout.InvalidOpCode Layout.isDWordLoad Layout.Class Layout.JumpClass
           Layout.JumpOp Layout.Call [mov; exit] [] LittleEndian H1 H2).
Defined.


Lemma marshalledOffsets_single_slots_witness :
  let mov := mkInstruction Layout.opMov 1 0 0 5 "" "A" in
  let exit := mkInstruction Layout.opExit 0 0 0 0 "" "B" in
  Forall (fun ins => Layout.isDWordLoad (OpCode ins) = false) [mov; exit]
  /\ marshalledOffsets Layout.isDWordLoad [mov; exit] = SymbolOffsets [mov; exit].
Proof.
  intros mov exit.
  assert (H : Forall (fun ins => Layout.isDWordLoad (OpCode ins) = false) [mov; exit]).
  { apply Forall_cons. split; [reflexivity|].
    apply Forall_cons. split; [reflexivity | apply Forall_nil_2]. }
  split; [exact H|].
  exact (marshalledOffsets_single_slots Layout.isDWordLoad [mov; exit] H).
Defined.

Lemma symbol_tables_compare_witness :
  let ld := mkInstruction Layout.LoadImmDWord 1 0 0 5 "" "" in
  let exit := mkInstruction Layout.opExit 0 0 0 0 "" "B" in
  let m1 : gmap string Z := <["B"%string := 1]> ∅ in
  let m2 : gmap string Z := <["B"%string := 2]> ∅ in
  SymbolOffsets [ld; exit] = Ok m1
  /\ marshalledOffsets Layout.isDWordLoad [ld; exit] = Ok m2
  /\ (m1 !! "B"%string = None <-> m2 !! "B"%string = None)
  /\ forall i, m1 !! "B"%string = Some i ->
       0 <= i < Z.of_nat (length [ld; exit])
       /\ exists p, m2 !! "B"%string = Some p /\ i <= p <= 2 * i.
Proof.
  intros ld exit m1 m2.
  assert (H1 : SymbolOffsets [ld; exit] = Ok m1) by reflexivity.
  assert (H2 : marshalledOffsets Layout.isDWordLoad [ld; exit] = Ok m2)
    by reflexivity.
  split; [exact H1|]. split; [exact H2|].
  exact (symbol_tables_compare Layout.isDWordLoad [ld; exit] m1 m2 "B" H1 H2).
Defined.
